(** * plainly: the content-script translation pipeline

    A shallow embedding of three classes of the browser extension
    - [TranslationCache] (content/translation-cache.ts),
    - [DomTranslator]    (content/dom-translator.ts),
    - [TextExtractor]    (content/text-extractor.ts, language detection),
    together with the properties of the specification that concern them.

    JavaScript strings are sequences of UTF-16 code units, [Map] objects are
    association lists in insertion order, [Date.now()] is an explicit input
    and the live DOM is a store from node references to text nodes. *)

From Stdlib Require Import Ascii String.
From Stdlib Require Import List ZArith NArith Lia Bool Permutation Sorted FinFun.
From Stdlib Require QArith.
Import ListNotations.

Local Open Scope Z_scope.

(* ================================================================== *)
(** * JavaScript strings and [Map] *)

Module Js.

(** A string is a list of UTF-16 code units. *)
Definition char := N.
Definition string := list char.

Definition string_eq_dec : forall a b : string, {a = b} + {a <> b} :=
  list_eq_dec N.eq_dec.

(** [a === b] on strings. *)
Definition eqb (a b : string) : bool :=
  if string_eq_dec a b then true else false.

(** ToBoolean on a string: only the empty string is falsy. *)
Definition truthy (s : string) : bool :=
  match s with
  | [] => false
  | _ :: _ => true
  end.

(** ToBoolean on [string | null]. *)
Definition truthy_opt (o : option string) : bool :=
  match o with
  | None => false
  | Some s => truthy s
  end.

(** An ASCII literal as a JavaScript string. *)
Definition lit (s : String.string) : string :=
  List.map Ascii.N_of_ascii (String.list_ascii_of_string s).

(** The class [\s]: WhiteSpace and LineTerminator code points. *)
Definition isWhiteSpace (c : char) : bool :=
  ((9 <=? c) && (c <=? 13) || (c =? 32) || (c =? 160) || (c =? 5760)
   || (8192 <=? c) && (c <=? 8202) || (c =? 8232) || (c =? 8233)
   || (c =? 8239) || (c =? 8287) || (c =? 12288) || (c =? 65279))%N.

(** [s.match(/^\s*/)[0]]: the longest run of white space at the start. *)
Fixpoint leadingWhitespace (s : string) : string :=
  match s with
  | [] => []
  | c :: s' => if isWhiteSpace c then c :: leadingWhitespace s' else []
  end.

(** [s.match(/\s*$/)[0]]: the matcher tries every start position from the
    left and succeeds at the first one from which only white space is left
    up to the end of the string. *)
Fixpoint trailingWhitespace (s : string) : string :=
  if forallb isWhiteSpace s then s
  else match s with
       | [] => []
       | _ :: s' => trailingWhitespace s'
       end.

(** [String.prototype.trim], which strips the same class as [\s]. *)
Fixpoint trimStart (s : string) : string :=
  match s with
  | [] => []
  | c :: s' => if isWhiteSpace c then trimStart s' else s
  end.

Definition trimEnd (s : string) : string := rev (trimStart (rev s)).

Definition trim (s : string) : string := trimEnd (trimStart s).

(** [Map<K, V>]: entries in insertion order, at most one per key. *)
Section JsMap.
Context {K V : Type} (K_eq_dec : forall a b : K, {a = b} + {a <> b}).

Definition Map := list (K * V).

Fixpoint map_get (m : Map) (k : K) : option V :=
  match m with
  | [] => None
  | (k', v) :: m' => if K_eq_dec k k' then Some v else map_get m' k
  end.

(** [m.set(k, v)]: an existing key keeps its position, a new one goes to
    the end. *)
Fixpoint map_set (m : Map) (k : K) (v : V) : Map :=
  match m with
  | [] => [(k, v)]
  | (k', v') :: m' =>
      if K_eq_dec k k' then (k, v) :: m' else (k', v') :: map_set m' k v
  end.

Fixpoint map_delete (m : Map) (k : K) : Map :=
  match m with
  | [] => []
  | (k', v') :: m' =>
      if K_eq_dec k k' then map_delete m' k else (k', v') :: map_delete m' k
  end.

Definition map_size (m : Map) : Z := Z.of_nat (length m).

Definition map_keys (m : Map) : list K := List.map fst m.
End JsMap.

(** A string that is not empty and neither starts nor ends with white
    space. *)
Definition starts_bare (s : string) : bool :=
  match s with
  | [] => false
  | c :: _ => negb (isWhiteSpace c)
  end.

Definition bare (s : string) : bool := starts_bare s && starts_bare (rev s).

End Js.

(* ================================================================== *)
(** * TranslationCache *)

Module TranslationCache.

Record CacheEntry := { translated : Js.string; timestamp : Z }.

(** [private cache = new Map<string, CacheEntry>()] *)
Definition t := @Js.Map Js.string CacheEntry.

Definition empty : t := [].

Definition maxSize : Z := 1000.
Definition ttl : Z := 24 * 60 * 60 * 1000.

Definition colon : Js.char := 58%N.

(** [`${sourceLang}:${targetLang}:${text}`] *)
Definition generateKey (text sourceLang targetLang : Js.string) : Js.string :=
  sourceLang ++ [colon] ++ targetLang ++ [colon] ++ text.

Definition cache_get := @Js.map_get Js.string CacheEntry Js.string_eq_dec.
Definition cache_set := @Js.map_set Js.string CacheEntry Js.string_eq_dec.
Definition cache_delete := @Js.map_delete Js.string CacheEntry Js.string_eq_dec.

(** [get]; [now] is the value [Date.now()] returns during the call.  The
    result is the returned [string | null] and the cache afterwards. *)
Definition get (cache : t) (text sourceLang targetLang : Js.string) (now : Z)
  : option Js.string * t :=
  let key := generateKey text sourceLang targetLang in
  match cache_get cache key with
  | None => (None, cache)
  | Some entry =>
      if now - timestamp entry >? ttl
      then (None, cache_delete cache key)
      else (Some (translated entry), cache)
  end.

(** The running minimum of [evictOldest] starts at [Infinity]. *)
Inductive time := Finite (z : Z) | Infinity.

Definition time_ltb (z : Z) (o : time) : bool :=
  match o with
  | Infinity => true
  | Finite z' => z <? z'
  end.

Definition evictOldest_step (acc : option Js.string * time)
  (kv : Js.string * CacheEntry) : option Js.string * time :=
  if time_ltb (timestamp (snd kv)) (snd acc)
  then (Some (fst kv), Finite (timestamp (snd kv)))
  else acc.

Definition evictOldest_scan (cache : t) : option Js.string * time :=
  fold_left evictOldest_step cache (None, Infinity).

Definition evictOldest (cache : t) : t :=
  match fst (evictOldest_scan cache) with
  | Some oldestKey =>
      if Js.truthy oldestKey then cache_delete cache oldestKey else cache
  | None => cache
  end.

Definition set (cache : t) (text translated sourceLang targetLang : Js.string)
  (now : Z) : t :=
  let cache1 :=
    if Js.map_size cache >=? maxSize then evictOldest cache else cache in
  cache_set cache1 (generateKey text sourceLang targetLang)
    {| translated := translated; timestamp := now |}.

Record Uncached := { index : nat; text : Js.string }.

Definition cached_set := @Js.map_set nat Js.string Nat.eq_dec.
Definition cached_get := @Js.map_get nat Js.string Nat.eq_dec.

Record Batch := {
  cached : @Js.Map nat Js.string;
  uncached : list Uncached
}.

(** The body of [texts.forEach((text, index) => ...)], from position
    [index] on.  [clock i] is what [Date.now()] returns while element [i]
    is looked up. *)
Fixpoint getMultiple_from (clock : nat -> Z) (sourceLang targetLang : Js.string)
  (texts : list Js.string) (index : nat) (cache : t) (acc : Batch)
  : Batch * t :=
  match texts with
  | [] => (acc, cache)
  | text :: rest =>
      let (cachedTranslation, cache') :=
        get cache text sourceLang targetLang (clock index) in
      let acc' :=
        match cachedTranslation with
        | Some s =>
            if Js.truthy s
            then {| cached := cached_set (cached acc) index s;
                    uncached := uncached acc |}
            else {| cached := cached acc;
                    uncached := uncached acc
                                ++ [{| index := index; text := text |}] |}
        | None =>
            {| cached := cached acc;
               uncached := uncached acc
                           ++ [{| index := index; text := text |}] |}
        end in
      getMultiple_from clock sourceLang targetLang rest (S index) cache' acc'
  end.

Definition getMultiple (clock : nat -> Z) (cache : t) (texts : list Js.string)
  (sourceLang targetLang : Js.string) : Batch * t :=
  getMultiple_from clock sourceLang targetLang texts 0%nat cache
    {| cached := []; uncached := [] |}.

Definition clear (cache : t) : t := [].

(** A call of [set] with its arguments and the clock reading it sees. *)
Record Insertion := {
  ins_text : Js.string;
  ins_translated : Js.string;
  ins_sourceLang : Js.string;
  ins_targetLang : Js.string;
  ins_now : Z
}.

Definition key_of (i : Insertion) : Js.string :=
  generateKey (ins_text i) (ins_sourceLang i) (ins_targetLang i).

Definition entry_of (i : Insertion) : Js.string * CacheEntry :=
  (key_of i, {| translated := ins_translated i; timestamp := ins_now i |}).

(** One [set] after the other. *)
Definition set_all (cache : t) (l : list Insertion) : t :=
  fold_left
    (fun c i =>
       set c (ins_text i) (ins_translated i) (ins_sourceLang i)
         (ins_targetLang i) (ins_now i))
    l cache.

(** The invariant of the private map: one entry per key, and no key is the
    empty string (a key always holds the two colons). *)
Definition cache_wf (c : t) : Prop :=
  NoDup (Js.map_keys c) /\ Forall (fun k => Js.truthy k = true) (Js.map_keys c).

(** [e] is an oldest entry of [c], and the first such in insertion order:
    [c] is [c1 ++ (k, e) :: c2] with everything in [c1] strictly younger
    and nothing in [c2] older. *)
Definition oldest_split (c c1 : t) (k : Js.string) (e : CacheEntry) (c2 : t)
  : Prop :=
  c = c1 ++ (k, e) :: c2
  /\ (forall x, In x c1 -> timestamp e < timestamp (snd x))
  /\ (forall x, In x c2 -> timestamp e <= timestamp (snd x)).

(** The calls [set(n, n, en, ko)] at time [n], for [n] from 0 up: distinct
    keys, increasing clock readings. *)
Definition numbered (n : nat) : Insertion :=
  {| ins_text := [N.of_nat n];
     ins_translated := [N.of_nat n];
     ins_sourceLang := Js.lit "en"%string;
     ins_targetLang := Js.lit "ko"%string;
     ins_now := Z.of_nat n |}.

End TranslationCache.

(* ================================================================== *)
(** * The live DOM, as far as the translator touches it *)

Module Dom.

(** A reference to a [Text] node; two references are the same node exactly
    when they are equal. *)
Definition Node := nat.

(** What the translator reads and writes of a [Text] node.  [parentNode]
    says whether [node.parentNode] is non-null. *)
Record Text := { textContent : Js.string; parentNode : bool }.

Definition Document := Node -> Text.

(** [node.textContent = s] *)
Definition setTextContent (d : Document) (node : Node) (s : Js.string)
  : Document :=
  fun n =>
    if Nat.eq_dec n node
    then {| textContent := s; parentNode := parentNode (d n) |}
    else d n.

End Dom.

(* ================================================================== *)
(** * DomTranslator *)

Module DomTranslator.

(** [parentElement] is left out: the translator never reads it. *)
Record TextNodeInfo := { node : Dom.Node; originalText : Js.string }.

Record TranslatedText := { original : Js.string; translated : Js.string }.

Record TranslationRecord := {
  rec_node : Dom.Node;
  rec_original : Js.string;
  rec_translated : Js.string
}.

Record t := { translations : list TranslationRecord; isTranslated : bool }.

Definition init : t := {| translations := []; isTranslated := false |}.

Definition replaceNodeText (d : Dom.Document) (node : Dom.Node)
  (newText : Js.string) : Dom.Document :=
  let originalFull := Dom.textContent (d node) in
  let leadingWhitespace := Js.leadingWhitespace originalFull in
  let trailingWhitespace := Js.trailingWhitespace originalFull in
  Dom.setTextContent d node (leadingWhitespace ++ newText ++ trailingWhitespace).

(** The [for] loop of [applyTranslations]; an element of [translatedTexts]
    is [None] where the array holds a falsy value. *)
Fixpoint applyTranslations_loop (textNodes : list TextNodeInfo)
  (translatedTexts : list (option TranslatedText))
  (log : list TranslationRecord) (d : Dom.Document)
  : list TranslationRecord * Dom.Document :=
  match textNodes, translatedTexts with
  | nodeInfo :: ns, translation :: ts =>
      match translation with
      | None => applyTranslations_loop ns ts log d
      | Some tr =>
          if Js.eqb (original tr) (translated tr)
          then applyTranslations_loop ns ts log d
          else applyTranslations_loop ns ts
                 (log ++ [{| rec_node := node nodeInfo;
                             rec_original := originalText nodeInfo;
                             rec_translated := translated tr |}])
                 (replaceNodeText d (node nodeInfo) (translated tr))
      end
  | _, _ => (log, d)
  end.

Definition applyTranslations (self : t) (d : Dom.Document)
  (textNodes : list TextNodeInfo)
  (translatedTexts : list (option TranslatedText)) : t * Dom.Document :=
  if negb (length textNodes =? length translatedTexts)%nat
  then (self, d)
  else
    let (log, d') :=
      applyTranslations_loop textNodes translatedTexts (translations self) d in
    ({| translations := log; isTranslated := true |}, d').

Definition restore_record (d : Dom.Document) (record : TranslationRecord)
  : Dom.Document :=
  if Dom.parentNode (d (rec_node record))
  then replaceNodeText d (rec_node record) (rec_original record)
  else d.

Definition restoreOriginal (self : t) (d : Dom.Document) : t * Dom.Document :=
  if negb (isTranslated self)
  then (self, d)
  else ({| translations := []; isTranslated := false |},
        fold_left restore_record (translations self) d).

Definition getStatus (self : t) : bool * nat :=
  (isTranslated self, length (translations self)).

Definition clear (self : t) : t :=
  {| translations := []; isTranslated := false |}.

(** What can happen to a translator and its page: the three mutating
    methods, and the page changing by itself between two calls. *)
Inductive call :=
| ApplyTranslations (textNodes : list TextNodeInfo)
    (translatedTexts : list (option TranslatedText))
| RestoreOriginal
| Clear
| PageChanges (d : Dom.Document).

Definition step (w : t * Dom.Document) (c : call) : t * Dom.Document :=
  match c with
  | ApplyTranslations ns ts => applyTranslations (fst w) (snd w) ns ts
  | RestoreOriginal => restoreOriginal (fst w) (snd w)
  | Clear => (clear (fst w), snd w)
  | PageChanges d => (fst w, d)
  end.

Definition run (calls : list call) (d : Dom.Document) : t * Dom.Document :=
  fold_left step calls (init, d).

(** A call hands over translations that report the very text which was
    snapshotted for their node. *)
Definition reports_snapshot (nodeInfo : TextNodeInfo)
  (translation : option TranslatedText) : Prop :=
  match translation with
  | None => True
  | Some tr => original tr = originalText nodeInfo
  end.


(** A pair the loop passes over: a hole, or a translation that reports
    itself unchanged. *)
Definition noop (translation : option TranslatedText) : Prop :=
  match translation with
  | None => True
  | Some tr => original tr = translated tr
  end.

(** The records a batch gives rise to; they do not depend on the page. *)
Fixpoint records_of (textNodes : list TextNodeInfo)
  (translatedTexts : list (option TranslatedText)) : list TranslationRecord :=
  match textNodes, translatedTexts with
  | nodeInfo :: ns, translation :: ts =>
      match translation with
      | None => records_of ns ts
      | Some tr =>
          if Js.eqb (original tr) (translated tr)
          then records_of ns ts
          else {| rec_node := node nodeInfo;
                  rec_original := originalText nodeInfo;
                  rec_translated := translated tr |} :: records_of ns ts
      end
  | _, _ => []
  end.

Definition substitute (d : Dom.Document) (record : TranslationRecord)
  : Dom.Document :=
  replaceNodeText d (rec_node record) (rec_translated record).

(** A page on which every text node is attached and reads [s]. *)
Definition page (s : Js.string) : Dom.Document :=
  fun _ => {| Dom.textContent := s; Dom.parentNode := true |}.

End DomTranslator.

(* ================================================================== *)
(** * Number division, as [detectLanguage] uses it *)

Module Float64.

(** A non-negative binary64 value [mant * 2^(-expo)]. *)
Record t := { mant : Z; expo : Z }.

Definition zero : t := {| mant := 0; expo := 0 |}.

(** The exponent [e] that brings [k / n] into the binade
    [2^52 <= k * 2^e / n < 2^53]. *)
Definition normalize (k n : Z) : Z :=
  let e0 := 52 + Z.log2 n - Z.log2 k in
  if k * 2 ^ e0 <? n * 2 ^ 52 then e0 + 1 else e0.

(** [k / n] for integers [0 <= k <= n], [0 < n], themselves exact as
    Numbers: the quotient rounded to 53 significant bits, to nearest, ties
    to even. *)
Definition div (k n : Z) : t :=
  if k =? 0 then zero
  else
    let e := normalize k n in
    let q := (k * 2 ^ e) / n in
    let r := (k * 2 ^ e) mod n in
    let m :=
      if 2 * r <? n then q
      else if n <? 2 * r then q + 1
      else if Z.even q then q else q + 1 in
    {| mant := m; expo := e |}.

Definition ltb (a b : t) : bool :=
  mant a * 2 ^ expo b <? mant b * 2 ^ expo a.

(** The literals [0.7] and [0.3] denote the Numbers nearest to 7/10 and
    3/10. *)
Definition lit_0_7 : t := div 7 10.
Definition lit_0_3 : t := div 3 10.

End Float64.

(* ================================================================== *)
(** * TextExtractor: language detection *)

Module TextExtractor.

Inductive Detected := ko | en | mixed.

(** The string a classification is at run time. *)
Definition code (d : Detected) : Js.string :=
  match d with
  | ko => Js.lit "ko"%string
  | en => Js.lit "en"%string
  | mixed => Js.lit "mixed"%string
  end.

(** [[가-힣]]: U+AC00 to U+D7A3. *)
Definition isHangul (c : Js.char) : bool :=
  ((44032 <=? c) && (c <=? 55203))%N.

(** [[a-zA-Z]] *)
Definition isLatin (c : Js.char) : bool :=
  ((97 <=? c) && (c <=? 122) || (65 <=? c) && (c <=? 90))%N.

(** [(text.match(/[...]/g) || []).length] *)
Definition count (p : Js.char -> bool) (text : Js.string) : Z :=
  Z.of_nat (length (filter p text)).

Definition detectLanguage (text : Js.string) : Detected :=
  let koreanChars := count isHangul text in
  let englishChars := count isLatin text in
  let total := koreanChars + englishChars in
  if total =? 0 then mixed
  else
    let koreanRatio := Float64.div koreanChars total in
    if Float64.ltb Float64.lit_0_7 koreanRatio then ko
    else if Float64.ltb koreanRatio Float64.lit_0_3 then en
    else mixed.

Definition isSourceLanguage (text sourceLang : Js.string) : bool :=
  match detectLanguage text with
  | mixed => true
  | detected => Js.eqb (code detected) sourceLang
  end.

End TextExtractor.

(* ================================================================== *)
(** * The life of a cache *)

Module CacheHistory.

(** The public methods of [TranslationCache], with their arguments and the
    clock readings they see. *)
Inductive call :=
| DoSet (i : TranslationCache.Insertion)
| DoGet (text sourceLang targetLang : Js.string) (now : Z)
| DoGetMultiple (clock : nat -> Z) (texts : list Js.string)
    (sourceLang targetLang : Js.string)
| DoClear.

Definition step (c : TranslationCache.t) (k : call) : TranslationCache.t :=
  match k with
  | DoSet i =>
      TranslationCache.set c (TranslationCache.ins_text i)
        (TranslationCache.ins_translated i) (TranslationCache.ins_sourceLang i)
        (TranslationCache.ins_targetLang i) (TranslationCache.ins_now i)
  | DoGet text sourceLang targetLang now =>
      snd (TranslationCache.get c text sourceLang targetLang now)
  | DoGetMultiple clock texts sourceLang targetLang =>
      snd (TranslationCache.getMultiple clock c texts sourceLang targetLang)
  | DoClear => TranslationCache.clear c
  end.

(** The cache after a history of calls on [new TranslationCache()]. *)
Definition run (calls : list call) : TranslationCache.t :=
  fold_left step calls TranslationCache.empty.

(** The items [getMultiple] reports when nothing is cached: every text with
    its position, from [index] on. *)
Fixpoint all_uncached (index : nat) (texts : list Js.string)
  : list TranslationCache.Uncached :=
  match texts with
  | [] => []
  | text :: rest =>
      {| TranslationCache.index := index; TranslationCache.text := text |}
      :: all_uncached (S index) rest
  end.

End CacheHistory.

(* ================================================================== *)
(** * TextExtractor: the letter-density filter *)

Module TextFilter.

(** [[a-zA-Z가-힣]] *)
Definition isLetter (c : Js.char) : bool :=
  TextExtractor.isLatin c || TextExtractor.isHangul c.

(** [isNonTranslatable].  On the empty string the quotient is [0 / 0],
    which is NaN, and [NaN < 0.3] is false. *)
Definition isNonTranslatable (text : Js.string) : bool :=
  let letterCount := TextExtractor.count isLetter text in
  let len := Z.of_nat (length text) in
  if len =? 0 then false
  else Float64.ltb (Float64.div letterCount len) Float64.lit_0_3.

End TextFilter.

(* ================================================================== *)
(** * Cutting an array into requests *)

Module Batching.

Section Slices.
Context {A : Type}.

(** [a.slice(i, j)] for [0 <= i <= j]. *)
Definition slice (a : list A) (i j : nat) : list A :=
  firstn (j - i) (skipn i a).

(** [for (let i = 0; i < a.length; i += size) out.push(a.slice(i, i + size))],
    from [i] on with [out] as it stands.  One unit of [fuel] is one turn of
    the loop; [None] means the loop is still running when the fuel is
    spent. *)
Fixpoint slices_from (fuel : nat) (size : nat) (a : list A) (i : nat)
  (out : list (list A)) : option (list (list A)) :=
  if (i <? length a)%nat then
    match fuel with
    | O => None
    | S fuel' =>
        slices_from fuel' size a (i + size) (out ++ [slice a i (i + size)])
    end
  else Some out.

Definition slices (fuel : nat) (size : nat) (a : list A)
  : option (list (list A)) :=
  slices_from fuel size a 0 [].

End Slices.

End Batching.

(* ================================================================== *)
(** * ApiClient *)

Module ApiClient.

(** How a call of [translate] ends: with its results, with a thrown error,
    or not within the fuel it was given. *)
Inductive outcome :=
| Returned (results : list DomTranslator.TranslatedText)
| Thrown
| Pending.

Section WithBackend.

Variable MAX_TEXTS_PER_REQUEST : nat.

(** The translation service.  [backend n texts] is what the [n]-th request
    of the session, carrying [texts], comes back with: [Some data] when the
    response is ok and reports success with data, [None] when it is not, in
    which case the code throws. *)
Variable backend : nat -> list Js.string -> option (list DomTranslator.TranslatedText).

(** [translate] and the loop of [translateInBatches].  [sent] is the list
    of requests made so far; one unit of [fuel] is one call from one of the
    two into the other or one turn of the loop. *)
Fixpoint translate (fuel : nat) (texts : list Js.string)
  (sent : list (list Js.string)) : outcome * list (list Js.string) :=
  if (length texts =? 0)%nat then (Returned [], sent)
  else if (MAX_TEXTS_PER_REQUEST <? length texts)%nat then
    match fuel with
    | O => (Pending, sent)
    | S fuel' => translateInBatches fuel' texts 0 [] sent
    end
  else
    match backend (length sent) texts with
    | Some data => (Returned data, sent ++ [texts])
    | None => (Thrown, sent ++ [texts])
    end
with translateInBatches (fuel : nat) (texts : list Js.string) (i : nat)
  (results : list DomTranslator.TranslatedText) (sent : list (list Js.string))
  : outcome * list (list Js.string) :=
  if (i <? length texts)%nat then
    match fuel with
    | O => (Pending, sent)
    | S fuel' =>
        let batch := Batching.slice texts i (i + MAX_TEXTS_PER_REQUEST) in
        match translate fuel' batch sent with
        | (Returned batchResults, sent') =>
            translateInBatches fuel' texts (i + MAX_TEXTS_PER_REQUEST)
              (results ++ batchResults) sent'
        | (Thrown, sent') => (Thrown, sent')
        | (Pending, sent') => (Pending, sent')
        end
    end
  else (Returned results, sent).

(** Sending the requests [bs] one after the other, the first of them being
    request number [n]: the outcome and the number of requests made. *)
Fixpoint send_all (n : nat) (bs : list (list Js.string))
  (results : list DomTranslator.TranslatedText) : outcome * nat :=
  match bs with
  | [] => (Returned results, O)
  | b :: bs' =>
      match backend n b with
      | Some data =>
          let (o, k) := send_all (S n) bs' (results ++ data) in (o, S k)
      | None => (Thrown, 1%nat)
      end
  end.

End WithBackend.

End ApiClient.

(* ================================================================== *)
(** * Elements, as the extractor and the content script see them *)

Module Page.

(** [getBoundingClientRect()]: pixel coordinates, compared exactly. *)
Record DOMRect := {
  top : QArith_base.Q;
  bottom : QArith_base.Q;
  left : QArith_base.Q;
  right : QArith_base.Q;
  width : QArith_base.Q;
  height : QArith_base.Q
}.

(** What is read of an element: its tag name, whether it is content
    editable, whether it is an input, a textarea or a select, the [display],
    [visibility] and [opacity] of its computed style, and its bounding
    box. *)
Record Element := {
  tagName : Js.string;
  isContentEditable : bool;
  isFormControl : bool;
  display : Js.string;
  visibility : Js.string;
  opacity : Js.string;
  rect : DOMRect
}.

Record Window := { innerHeight : QArith_base.Q; innerWidth : QArith_base.Q }.

(** [TextNodeInfo] with all its fields. *)
Record TextNodeInfo := {
  node : Dom.Node;
  originalText : Js.string;
  parentElement : Element
}.

(** The part of it that [DomTranslator] reads. *)
Definition forTranslator (n : TextNodeInfo) : DomTranslator.TextNodeInfo :=
  {| DomTranslator.node := node n; DomTranslator.originalText := originalText n |}.

Definition zero : QArith_base.Q := QArith_base.Qmake 0 1.

(** [a < b] on pixel values. *)
Definition ltb (a b : QArith_base.Q) : bool := negb (QArith_base.Qle_bool b a).

End Page.

(* ================================================================== *)
(** * The content script *)

Module ContentScript.

Definition isInViewport (window : Page.Window) (element : Page.Element) : bool :=
  let rect := Page.rect element in
  Page.ltb (Page.top rect) (Page.innerHeight window)
  && Page.ltb Page.zero (Page.bottom rect)
  && Page.ltb (Page.left rect) (Page.innerWidth window)
  && Page.ltb Page.zero (Page.right rect).

(** [Array.prototype.sort] with a comparator.  The sort is stable, so for
    a consistent comparator its result is fixed; it is computed here by
    insertion, an element moving right past those it compares greater
    than. *)
Section Sort.
Context {A : Type} (compareFn : A -> A -> Z).

Fixpoint insert (x : A) (l : list A) : list A :=
  match l with
  | [] => [x]
  | y :: l' => if compareFn x y >? 0 then y :: insert x l' else x :: l
  end.

Definition sort (l : list A) : list A := fold_right insert [] l.

End Sort.

Definition sortByViewport (window : Page.Window) (nodes : list Page.TextNodeInfo)
  : list Page.TextNodeInfo :=
  sort
    (fun a b =>
       let aVisible := if isInViewport window (Page.parentElement a) then 1 else 0 in
       let bVisible := if isInViewport window (Page.parentElement b) then 1 else 0 in
       bVisible - aVisible)
    nodes.

(** The fields of the content script that [translateNodesParallel] reads;
    [translatingNodes] is a [Set] of text nodes. *)
Record State := {
  isEnabled : bool;
  sourceLang : Js.string;
  targetLang : Js.string;
  translatingNodes : list Dom.Node
}.

Definition has (s : list Dom.Node) (n : Dom.Node) : bool :=
  existsb (Nat.eqb n) s.

(** The [filter] at the head of [translateNodesParallel]. *)
Definition newNodes (st : State) (textNodes : list DomTranslator.TextNodeInfo)
  : list DomTranslator.TextNodeInfo :=
  filter
    (fun n =>
       if has (translatingNodes st) (DomTranslator.node n) then false
       else TextExtractor.isSourceLanguage (DomTranslator.originalText n)
              (sourceLang st))
    textNodes.

(** The [cached.forEach] block: the node and the text at each cached index,
    in the order of the map.  [None] stands for a batch in which some index
    has no node or no text, where the code would push [undefined]. *)
Fixpoint cachedBatch (newNodes : list DomTranslator.TextNodeInfo)
  (texts : list Js.string) (cached : @Js.Map nat Js.string)
  : option (list DomTranslator.TextNodeInfo * list DomTranslator.TranslatedText) :=
  match cached with
  | [] => Some ([], [])
  | (index, translated) :: rest =>
      match nth_error newNodes index, nth_error texts index,
            cachedBatch newNodes texts rest with
      | Some nodeInfo, Some text, Some (cachedNodes, cachedResults) =>
          Some (nodeInfo :: cachedNodes,
                {| DomTranslator.original := text;
                   DomTranslator.translated := translated |} :: cachedResults)
      | _, _, _ => None
      end
  end.

(** One entry of [batches]; a node is [None] where [newNodes[u.index]] is
    [undefined]. *)
Record Batch := {
  indices : list TranslationCache.Uncached;
  nodes : list (option DomTranslator.TextNodeInfo)
}.

Definition makeBatch (newNodes : list DomTranslator.TextNodeInfo)
  (batchIndices : list TranslationCache.Uncached) : Batch :=
  {| indices := batchIndices;
     nodes := map (fun u => nth_error newNodes (TranslationCache.index u))
                batchIndices |}.

(** The loop that fills [batches]: the slices of [uncached], each with its
    nodes. *)
Definition makeBatches (fuel : nat) (MAX_TEXTS_PER_REQUEST : nat)
  (newNodes : list DomTranslator.TextNodeInfo)
  (uncached : list TranslationCache.Uncached) : option (list Batch) :=
  option_map (map (makeBatch newNodes))
    (Batching.slices fuel MAX_TEXTS_PER_REQUEST uncached).

(** [results.forEach(result => translationCache.set(...))], the [i]-th call
    reading the clock at [clock i]. *)
Fixpoint cacheResults (clock : nat -> Z) (i : nat) (st : State)
  (cache : TranslationCache.t) (results : list DomTranslator.TranslatedText)
  : TranslationCache.t :=
  match results with
  | [] => cache
  | result :: rest =>
      cacheResults clock (S i) st
        (TranslationCache.set cache (DomTranslator.original result)
           (DomTranslator.translated result) (sourceLang st) (targetLang st)
           (clock i))
        rest
  end.

(** The body of [translateBatch] once the backend has answered.
    [response] is [Some data] when [response?.success && response.data]
    holds. *)
Definition receive (st : State) (clock : nat -> Z)
  (cache : TranslationCache.t) (translator : DomTranslator.t) (d : Dom.Document)
  (batchNodes : list DomTranslator.TextNodeInfo)
  (response : option (list DomTranslator.TranslatedText))
  : TranslationCache.t * (DomTranslator.t * Dom.Document) :=
  match response with
  | None => (cache, (translator, d))
  | Some results =>
      (cacheResults clock 0 st cache results,
       if isEnabled st
       then DomTranslator.applyTranslations translator d batchNodes
              (map Some results)
       else (translator, d))
  end.

End ContentScript.

(* ================================================================== *)
(** * TextExtractor: walking the tree *)

Module Extraction.

(** A DOM subtree: text nodes with their reference and content, other leaf
    nodes (comments), and elements with their children and, when they host
    an open one, the children of their shadow root. *)
#[local] Set Warnings "-register-all".

Inductive Node :=
| TextNode (ref : Dom.Node) (textContent : Js.string)
| CommentNode
| ElementNode (element : Page.Element) (childNodes : list Node)
    (shadowRoot : option (list Node)).

Inductive NodeFilter := FILTER_ACCEPT | FILTER_REJECT | FILTER_SKIP.

Section WithConstants.

(** [SKIP_TAGS.has], [MIN_TEXT_LENGTH] and [MAX_TEXT_LENGTH] of the shared
    constants. *)
Variable SKIP_TAGS : Js.string -> bool.
Variables MIN_TEXT_LENGTH MAX_TEXT_LENGTH : Z.

(** [filterTextNode] on a text node with the given [parentElement] and
    [textContent]. *)
Definition filterTextNode (parent : option Page.Element)
  (textContent : Js.string) : NodeFilter :=
  match parent with
  | None => FILTER_REJECT
  | Some parent =>
      if SKIP_TAGS (Page.tagName parent) then FILTER_REJECT
      else if Page.isContentEditable parent then FILTER_REJECT
      else if Page.isFormControl parent then FILTER_REJECT
      else
        let text := Js.trim textContent in
        if negb (Js.truthy text) then FILTER_REJECT
        else if TextFilter.isNonTranslatable text then FILTER_REJECT
        else FILTER_ACCEPT
  end.

Definition isElementVisible (element : Page.Element) : bool :=
  if Js.eqb (Page.display element) (Js.lit "none"%string) then false
  else if Js.eqb (Page.visibility element) (Js.lit "hidden"%string) then false
  else if Js.eqb (Page.opacity element) (Js.lit "0"%string) then false
  else if QArith_base.Qeq_bool (Page.width (Page.rect element)) Page.zero
          && QArith_base.Qeq_bool (Page.height (Page.rect element)) Page.zero
       then false
  else true.

(** What the walker and the body of the [while] loop make of one text
    node: nothing, or one [TextNodeInfo]. *)
Definition visit (parent : option Page.Element) (ref : Dom.Node)
  (textContent : Js.string) : list Page.TextNodeInfo :=
  match filterTextNode parent textContent with
  | FILTER_ACCEPT =>
      match parent with
      | None => []
      | Some parentElement =>
          let text := Js.trim textContent in
          if (Z.of_nat (length text) <? MIN_TEXT_LENGTH)
             || (Z.of_nat (length text) >? MAX_TEXT_LENGTH) then []
          else if negb (isElementVisible parentElement) then []
          else [{| Page.node := ref;
                   Page.originalText := text;
                   Page.parentElement := parentElement |}]
      end
  | _ => []
  end.

(** The tree walker below a node whose parent element is [parent]: text
    nodes are filtered, elements are skipped but their children are walked,
    shadow roots are not entered. *)
Fixpoint walk (parent : option Page.Element) (n : Node)
  : list Page.TextNodeInfo :=
  match n with
  | TextNode ref textContent => visit parent ref textContent
  | CommentNode => []
  | ElementNode element childNodes _ => flat_map (walk (Some element)) childNodes
  end.

(** [extractFromShadowRoots] on a node and its descendants, in document
    order: for each element with a shadow root, [extractFromNode] on that
    root. *)
Fixpoint shadows (n : Node) : list Page.TextNodeInfo :=
  match n with
  | TextNode _ _ => []
  | CommentNode => []
  | ElementNode _ childNodes shadowRoot =>
      match shadowRoot with
      | Some shadowChildren =>
          flat_map (walk None) shadowChildren ++ flat_map shadows shadowChildren
      | None => []
      end
      ++ flat_map shadows childNodes
  end.

(** [extractFromNode(root, textNodes)] appends this to [textNodes].  The
    root is given by its children and by itself when it is an element,
    [None] when it is a shadow root. *)
Definition extractFromNode (root : option Page.Element) (childNodes : list Node)
  : list Page.TextNodeInfo :=
  flat_map (walk root) childNodes ++ flat_map shadows childNodes.

Definition extractTextNodes (root : option Page.Element) (childNodes : list Node)
  : list Page.TextNodeInfo :=
  [] ++ extractFromNode root childNodes.

End WithConstants.

(** Every text node below a node, in the light tree and in all shadow
    trees, with its parent element and its content. *)
Fixpoint textsIn (parent : option Page.Element) (n : Node)
  : list (option Page.Element * Dom.Node * Js.string) :=
  match n with
  | TextNode ref textContent => [(parent, ref, textContent)]
  | CommentNode => []
  | ElementNode element childNodes shadowRoot =>
      flat_map (textsIn (Some element)) childNodes
      ++ match shadowRoot with
         | Some shadowChildren => flat_map (textsIn None) shadowChildren
         | None => []
         end
  end.

(** What comes of one entry of [textsIn]. *)
Definition visit3 (SKIP_TAGS : Js.string -> bool)
  (MIN_TEXT_LENGTH MAX_TEXT_LENGTH : Z)
  (t : option Page.Element * Dom.Node * Js.string) : list Page.TextNodeInfo :=
  visit SKIP_TAGS MIN_TEXT_LENGTH MAX_TEXT_LENGTH (fst (fst t)) (snd (fst t)) (snd t).

(** The conditions under which a text node with content [s] below the
    element [el] is a candidate. *)
Definition eligible (SKIP_TAGS : Js.string -> bool)
  (MIN_TEXT_LENGTH MAX_TEXT_LENGTH : Z) (el : Page.Element) (s : Js.string)
  : Prop :=
  SKIP_TAGS (Page.tagName el) = false
  /\ Page.isContentEditable el = false
  /\ Page.isFormControl el = false
  /\ Js.trim s <> []
  /\ TextFilter.isNonTranslatable (Js.trim s) = false
  /\ MIN_TEXT_LENGTH <= Z.of_nat (length (Js.trim s)) <= MAX_TEXT_LENGTH
  /\ isElementVisible el = true.

(** A small page for the examples: a visible paragraph holding the text
    [ Hello ] and a host whose shadow root holds a span with [Bye] and,
    directly below the root, the text [Hi there]. *)
Definition demo_element : Page.Element :=
  {| Page.tagName := Js.lit "P"%string;
     Page.isContentEditable := false;
     Page.isFormControl := false;
     Page.display := Js.lit "block"%string;
     Page.visibility := Js.lit "visible"%string;
     Page.opacity := Js.lit "1"%string;
     Page.rect :=
       {| Page.top := QArith_base.Qmake 10 1;
          Page.bottom := QArith_base.Qmake 30 1;
          Page.left := QArith_base.Qmake 0 1;
          Page.right := QArith_base.Qmake 200 1;
          Page.width := QArith_base.Qmake 200 1;
          Page.height := QArith_base.Qmake 20 1 |} |}.

Definition demo_skip (tag : Js.string) : bool :=
  Js.eqb tag (Js.lit "SCRIPT"%string).

Definition demo_tree : list Node :=
  [ElementNode demo_element
     [TextNode 0%nat (Js.lit " Hello "%string);
      ElementNode demo_element []
        (Some [ElementNode demo_element [TextNode 1%nat (Js.lit "Bye"%string)] None;
               TextNode 2%nat (Js.lit "Hi there"%string)])]
     None].

End Extraction.

(* ================================================================== *)
(** * Facts about [Map] *)

Section JsMapFacts.
Context {K V : Type} (K_eq_dec : forall a b : K, {a = b} + {a <> b}).

Local Abbreviation get := (Js.map_get K_eq_dec).
Local Abbreviation set := (Js.map_set K_eq_dec).
Local Abbreviation delete := (Js.map_delete K_eq_dec).

Lemma map_get_In (m : @Js.Map K V) k v : get m k = Some v -> In (k, v) m.
Proof.
  induction m as [|[k' v'] m IH]; simpl; [discriminate|].
  destruct (K_eq_dec k k') as [->|]; intros H.
  - left. congruence.
  - right. auto.
Qed.

Lemma map_get_None (m : @Js.Map K V) k :
  get m k = None <-> ~ In k (Js.map_keys m).
Proof.
  induction m as [|[k' v'] m IH]; simpl.
  - tauto.
  - destruct (K_eq_dec k k') as [->|Hne].
    + split; [discriminate | intros H; exfalso; apply H; now left].
    + rewrite IH. split; intros H.
      * intros [E|I]; [now apply Hne | now apply H].
      * intros I. apply H. now right.
Qed.

Lemma map_get_Some_key (m : @Js.Map K V) k v :
  get m k = Some v -> In k (Js.map_keys m).
Proof.
  intros H. apply map_get_In in H.
  apply (in_map fst) in H. exact H.
Qed.

Lemma map_get_delete_same (m : @Js.Map K V) k : get (delete m k) k = None.
Proof.
  induction m as [|[k' v'] m IH]; simpl; [reflexivity|].
  destruct (K_eq_dec k k') as [->|Hne]; [exact IH|].
  simpl. destruct (K_eq_dec k k'); [contradiction | exact IH].
Qed.

Lemma map_get_delete_other (m : @Js.Map K V) k k' :
  k' <> k -> get (delete m k) k' = get m k'.
Proof.
  intros Hne. induction m as [|[k0 v0] m IH]; simpl; [reflexivity|].
  destruct (K_eq_dec k k0) as [->|Hk].
  - destruct (K_eq_dec k' k0); [contradiction | exact IH].
  - simpl. destruct (K_eq_dec k' k0); [reflexivity | exact IH].
Qed.

Lemma map_get_set_same (m : @Js.Map K V) k v : get (set m k v) k = Some v.
Proof.
  induction m as [|[k' v'] m IH]; simpl.
  - destruct (K_eq_dec k k); [reflexivity | contradiction].
  - destruct (K_eq_dec k k') as [->|Hne]; simpl.
    + destruct (K_eq_dec k' k'); [reflexivity | contradiction].
    + destruct (K_eq_dec k k'); [contradiction | exact IH].
Qed.

Lemma map_get_set_other (m : @Js.Map K V) k k' v :
  k' <> k -> get (set m k v) k' = get m k'.
Proof.
  intros Hne. induction m as [|[k0 v0] m IH]; simpl.
  - destruct (K_eq_dec k' k); [contradiction | reflexivity].
  - destruct (K_eq_dec k k0) as [->|Hk]; simpl.
    + destruct (K_eq_dec k' k0); [contradiction | reflexivity].
    + destruct (K_eq_dec k' k0); [reflexivity | exact IH].
Qed.

(** Setting a key the map does not hold appends the entry. *)
Lemma map_set_fresh (m : @Js.Map K V) k v :
  ~ In k (Js.map_keys m) -> set m k v = m ++ [(k, v)].
Proof.
  induction m as [|[k' v'] m IH]; simpl; intros H; [reflexivity|].
  destruct (K_eq_dec k k') as [->|Hne].
  - exfalso. apply H. now left.
  - f_equal. apply IH. intros I. apply H. now right.
Qed.

Lemma map_delete_absent (m : @Js.Map K V) k :
  ~ In k (Js.map_keys m) -> delete m k = m.
Proof.
  induction m as [|[k' v'] m IH]; simpl; intros H; [reflexivity|].
  destruct (K_eq_dec k k') as [->|Hne].
  - exfalso. apply H. now left.
  - f_equal. apply IH. intros I. apply H. now right.
Qed.

Lemma map_keys_delete (m : @Js.Map K V) k k' :
  In k' (Js.map_keys (delete m k)) <-> In k' (Js.map_keys m) /\ k' <> k.
Proof.
  induction m as [|[k0 v0] m IH]; simpl; [tauto|].
  destruct (K_eq_dec k k0) as [->|Hne]; simpl; rewrite IH.
  - split; [tauto|]. intros [[E|I] N]; [congruence | tauto].
  - split; [|tauto]. intros [E|[I N]]; [|tauto].
    split; [now left | congruence].
Qed.

Lemma map_delete_NoDup (m : @Js.Map K V) k :
  NoDup (Js.map_keys m) -> NoDup (Js.map_keys (delete m k)).
Proof.
  induction m as [|[k0 v0] m IH]; simpl; intros H; [constructor|].
  inversion H as [|? ? Hin Hnd]; subst.
  destruct (K_eq_dec k k0) as [->|Hne]; simpl; [auto|].
  constructor; [|auto].
  rewrite map_keys_delete. tauto.
Qed.

Lemma map_keys_set (m : @Js.Map K V) k v k' :
  In k' (Js.map_keys (set m k v)) <-> In k' (Js.map_keys m) \/ k' = k.
Proof.
  induction m as [|[k0 v0] m IH]; simpl.
  - intuition congruence.
  - destruct (K_eq_dec k k0) as [->|Hne]; simpl; [|rewrite IH];
      intuition congruence.
Qed.

Lemma map_set_NoDup (m : @Js.Map K V) k v :
  NoDup (Js.map_keys m) -> NoDup (Js.map_keys (set m k v)).
Proof.
  induction m as [|[k0 v0] m IH]; simpl; intros H.
  - constructor; [intros [] | constructor].
  - inversion H as [|? ? Hin Hnd]; subst.
    destruct (K_eq_dec k k0) as [->|Hne]; simpl.
    + now constructor.
    + constructor; [|auto].
      rewrite map_keys_set. intros [I|E]; [contradiction | congruence].
Qed.

(** Deleting the key of the first entry of a duplicate-free map drops
    that entry and nothing else. *)
Lemma map_delete_head (m : @Js.Map K V) k v :
  NoDup (Js.map_keys ((k, v) :: m)) -> delete ((k, v) :: m) k = m.
Proof.
  simpl. intros H. inversion H; subst.
  destruct (K_eq_dec k k); [|contradiction].
  now apply map_delete_absent.
Qed.

Lemma map_delete_middle (m1 m2 : @Js.Map K V) k v :
  NoDup (Js.map_keys (m1 ++ (k, v) :: m2)) ->
  delete (m1 ++ (k, v) :: m2) k = m1 ++ m2.
Proof.
  induction m1 as [|[k0 v0] m1 IH]; intros H.
  - now apply map_delete_head.
  - simpl in *. inversion H as [|? ? Hin Hnd]; subst.
    destruct (K_eq_dec k k0) as [->|Hne].
    + exfalso. apply Hin. unfold Js.map_keys. rewrite map_app, in_app_iff.
      right. now left.
    + f_equal. now apply IH.
Qed.

Lemma map_get_NoDup_In (m : @Js.Map K V) k v :
  NoDup (Js.map_keys m) -> In (k, v) m -> get m k = Some v.
Proof.
  induction m as [|[k0 v0] m IH]; simpl; intros Hnd Hin; [contradiction|].
  inversion Hnd as [|? ? Hk Hnd']; subst.
  destruct (K_eq_dec k k0) as [->|Hne].
  - destruct Hin as [E|I]; [congruence|].
    exfalso. apply Hk. apply (in_map fst) in I. exact I.
  - destruct Hin as [E|I]; [congruence | auto].
Qed.

End JsMapFacts.

(* ================================================================== *)
(** * TranslationCache: expiry on read *)

Section CacheRead.
Import TranslationCache.

Lemma cache_get_set_same (c : t) k e : cache_get (cache_set c k e) k = Some e.
Proof. apply map_get_set_same. Qed.

Lemma cache_get_set_other (c : t) k k' e :
  k' <> k -> cache_get (cache_set c k e) k' = cache_get c k'.
Proof. apply map_get_set_other. Qed.

Lemma cache_get_delete_same (c : t) k : cache_get (cache_delete c k) k = None.
Proof. apply map_get_delete_same. Qed.

Lemma cache_get_delete_other (c : t) k k' :
  k' <> k -> cache_get (cache_delete c k) k' = cache_get c k'.
Proof. apply map_get_delete_other. Qed.

(** What [set] stores under the key is the given translation, stamped with
    the time of the call. *)
Lemma set_stores (c : t) text tr src tgt T :
  cache_get (set c text tr src tgt T) (generateKey text src tgt)
  = Some {| translated := tr; timestamp := T |}.
Proof. unfold set. apply cache_get_set_same. Qed.

(** [get] answers from the entry alone: a hit exactly while the age is at
    most [ttl]. *)
Lemma get_hit (c : t) text src tgt e now :
  cache_get c (generateKey text src tgt) = Some e ->
  now - timestamp e <= ttl ->
  get c text src tgt now = (Some (translated e), c).
Proof.
  intros He Hage. unfold get. rewrite He.
  destruct (now - timestamp e >? ttl) eqn:E; [|reflexivity].
  apply Z.gtb_lt in E. lia.
Qed.

Lemma get_expired (c : t) text src tgt e now :
  cache_get c (generateKey text src tgt) = Some e ->
  ttl < now - timestamp e ->
  get c text src tgt now = (None, cache_delete c (generateKey text src tgt)).
Proof.
  intros He Hage. unfold get. rewrite He.
  destruct (now - timestamp e >? ttl) eqn:E; [reflexivity|].
  rewrite Z.gtb_ltb, Z.ltb_ge in E. lia.
Qed.

Lemma get_absent (c : t) text src tgt now :
  cache_get c (generateKey text src tgt) = None ->
  get c text src tgt now = (None, c).
Proof. intros He. unfold get. now rewrite He. Qed.

(** A read touches no key but its own. *)
Lemma get_other_keys (c : t) text src tgt now k :
  k <> generateKey text src tgt ->
  cache_get (snd (get c text src tgt now)) k = cache_get c k.
Proof.
  intros Hne. unfold get.
  destruct (cache_get c (generateKey text src tgt)) as [e|]; [|reflexivity].
  destruct (now - timestamp e >? ttl); [|reflexivity].
  simpl. now apply cache_get_delete_other.
Qed.

(** A read never adds or changes an entry: what is found afterwards was
    there before. *)
Lemma get_only_deletes (c : t) text src tgt now k e :
  cache_get (snd (get c text src tgt now)) k = Some e -> cache_get c k = Some e.
Proof.
  unfold get.
  destruct (cache_get c (generateKey text src tgt)) as [e0|]; [|auto].
  destruct (now - timestamp e0 >? ttl); [|auto].
  simpl. destruct (Js.string_eq_dec k (generateKey text src tgt)) as [->|Hne].
  - rewrite cache_get_delete_same. discriminate.
  - now rewrite cache_get_delete_other.
Qed.

(** Below capacity [set] removes nothing. *)
Lemma set_below_capacity (c : t) text tr src tgt T k :
  Js.map_size c < maxSize ->
  k <> generateKey text src tgt ->
  cache_get (set c text tr src tgt T) k = cache_get c k.
Proof.
  intros Hsz Hne. unfold set.
  destruct (Js.map_size c >=? maxSize) eqn:E.
  - rewrite Z.geb_le in E. lia.
  - now apply cache_get_set_other.
Qed.

(** C6. An entry stamped [T] is a hit at every read time up to [T + ttl - 1]
    (the cache is left as it is), and at every read time after [T + ttl] the
    read misses and deletes the entry.  Expiry is lazy: whatever the time, a
    read leaves the entries of all other keys alone, and [set] below capacity
    removes nothing, however old. *)
Theorem get_ttl_expiry (c : t) text src tgt e now
  (Hentry : cache_get c (generateKey text src tgt) = Some e) :
  (now <= timestamp e + ttl - 1 ->
     get c text src tgt now = (Some (translated e), c))
  /\ (now > timestamp e + ttl ->
        fst (get c text src tgt now) = None
        /\ snd (get c text src tgt now)
           = cache_delete c (generateKey text src tgt)
        /\ cache_get (snd (get c text src tgt now)) (generateKey text src tgt)
           = None)
  /\ (forall k, k <> generateKey text src tgt ->
        cache_get (snd (get c text src tgt now)) k = cache_get c k)
  /\ (forall text' tr' src' tgt' T' k,
        Js.map_size c < maxSize ->
        k <> generateKey text' src' tgt' ->
        cache_get (set c text' tr' src' tgt' T') k = cache_get c k).
Proof.
  repeat split.
  - intros H. apply get_hit; [assumption | lia].
  - rewrite (get_expired c text src tgt e now); [reflexivity | assumption | lia].
  - rewrite (get_expired c text src tgt e now); [reflexivity | assumption | lia].
  - rewrite (get_expired c text src tgt e now); [|assumption | lia].
    apply cache_get_delete_same.
  - intros k Hk. now apply get_other_keys.
  - intros. now apply set_below_capacity.
Qed.

(** The property at the two instants of the specification, for an entry
    that [set] has just stored at time [T = 1000]. *)
Lemma get_ttl_expiry_witness :
  let c := set empty (Js.lit "Hello"%string) (Js.lit "annyeong"%string)
             (Js.lit "en"%string) (Js.lit "ko"%string) 1000 in
  get c (Js.lit "Hello"%string) (Js.lit "en"%string) (Js.lit "ko"%string)
    (1000 + ttl - 1)
  = (Some (Js.lit "annyeong"%string), c)
  /\ get c (Js.lit "Hello"%string) (Js.lit "en"%string) (Js.lit "ko"%string)
       (1000 + ttl + 1)
     = (None, empty).
Proof.
  intros c.
  pose proof (set_stores empty (Js.lit "Hello"%string)
                (Js.lit "annyeong"%string) (Js.lit "en"%string)
                (Js.lit "ko"%string) 1000) as Hs.
  split.
  - apply (proj1 (get_ttl_expiry c _ _ _ _ (1000 + ttl - 1) Hs)).
    simpl. lia.
  - destruct (proj1 (proj2 (get_ttl_expiry c _ _ _ _ (1000 + ttl + 1) Hs)))
      as (H1 & H2 & _); [simpl; lia|].
    rewrite (surjective_pairing (get c _ _ _ _)), H1, H2. reflexivity.
Defined.

End CacheRead.

(* ================================================================== *)
(** * TranslationCache: eviction on write *)

Section CacheEviction.
Import TranslationCache.

Lemma generateKey_truthy text src tgt :
  Js.truthy (generateKey text src tgt) = true.
Proof. unfold generateKey. destruct src; reflexivity. Qed.

Lemma cache_wf_empty : cache_wf empty.
Proof. split; constructor. Qed.

Lemma cache_wf_delete (c : t) k : cache_wf c -> cache_wf (cache_delete c k).
Proof.
  intros [Hnd Hk]. split.
  - now apply map_delete_NoDup.
  - rewrite Forall_forall in *. intros x Hx.
    apply map_keys_delete in Hx. apply Hk, Hx.
Qed.

Lemma cache_wf_set_key (c : t) k e :
  Js.truthy k = true -> cache_wf c -> cache_wf (cache_set c k e).
Proof.
  intros Ht [Hnd Hk]. split.
  - now apply map_set_NoDup.
  - rewrite Forall_forall in *. intros x Hx.
    apply map_keys_set in Hx. destruct Hx as [Hx| ->]; auto.
Qed.

Lemma cache_wf_evictOldest (c : t) : cache_wf c -> cache_wf (evictOldest c).
Proof.
  intros H. unfold evictOldest.
  destruct (fst (evictOldest_scan c)) as [k|]; [|exact H].
  destruct (Js.truthy k); [now apply cache_wf_delete | exact H].
Qed.

Lemma cache_wf_set (c : t) text tr src tgt now :
  cache_wf c -> cache_wf (set c text tr src tgt now).
Proof.
  intros H. unfold set. apply cache_wf_set_key.
  - apply generateKey_truthy.
  - destruct (Js.map_size c >=? maxSize); [now apply cache_wf_evictOldest | exact H].
Qed.

Lemma cache_wf_get (c : t) text src tgt now :
  cache_wf c -> cache_wf (snd (get c text src tgt now)).
Proof.
  intros H. unfold get.
  destruct (cache_get c (generateKey text src tgt)) as [e|]; [|exact H].
  destruct (now - timestamp e >? ttl); [now apply cache_wf_delete | exact H].
Qed.

Lemma evictOldest_step_finite ok z kx ex :
  evictOldest_step (ok, Finite z) (kx, ex)
  = if timestamp ex <? z then (Some kx, Finite (timestamp ex))
    else (ok, Finite z).
Proof. reflexivity. Qed.

Lemma evictOldest_step_infinity ok kx ex :
  evictOldest_step (ok, Infinity) (kx, ex) = (Some kx, Finite (timestamp ex)).
Proof. reflexivity. Qed.

Lemma evictOldest_scan_from (c : t) : forall ok z,
  (fold_left evictOldest_step c (ok, Finite z) = (ok, Finite z)
   /\ forall x, In x c -> z <= timestamp (snd x))
  \/ exists c1 k e c2,
       oldest_split c c1 k e c2
       /\ fold_left evictOldest_step c (ok, Finite z)
          = (Some k, Finite (timestamp e))
       /\ timestamp e < z.
Proof.
  induction c as [|[kx ex] c IH]; intros ok z.
  - left. split; [reflexivity | intros x []].
  - cbn [fold_left]. rewrite evictOldest_step_finite.
    destruct (timestamp ex <? z) eqn:E.
    + apply Z.ltb_lt in E. right.
      destruct (IH (Some kx) (timestamp ex))
        as [[Hr Hall] | (c1 & k & e & c2 & (Hc & H1 & H2) & Hr & Hlt)].
      * exists [], kx, ex, c. repeat split; auto. intros x [].
      * exists ((kx, ex) :: c1), k, e, c2. repeat split.
        -- simpl. now rewrite Hc.
        -- intros x [<-|Hx]; [exact Hlt | now apply H1].
        -- exact H2.
        -- exact Hr.
        -- lia.
    + apply Z.ltb_ge in E.
      destruct (IH ok z)
        as [[Hr Hall] | (c1 & k & e & c2 & (Hc & H1 & H2) & Hr & Hlt)].
      * left. split; [exact Hr|]. intros x [<-|Hx]; [exact E | now apply Hall].
      * right. exists ((kx, ex) :: c1), k, e, c2. repeat split.
        -- simpl. now rewrite Hc.
        -- intros x [<-|Hx]; [simpl; lia | now apply H1].
        -- exact H2.
        -- exact Hr.
        -- exact Hlt.
Qed.

(** On a non-empty map the scan ends on the first oldest entry. *)
Lemma evictOldest_scan_spec (c : t) :
  c <> [] ->
  exists c1 k e c2,
    oldest_split c c1 k e c2
    /\ evictOldest_scan c = (Some k, Finite (timestamp e)).
Proof.
  destruct c as [|[kx ex] c]; [congruence|]. intros _.
  unfold evictOldest_scan. cbn [fold_left]. rewrite evictOldest_step_infinity.
  destruct (evictOldest_scan_from c (Some kx) (timestamp ex))
    as [[Hr Hall] | (c1 & k & e & c2 & (Hc & H1 & H2) & Hr & Hlt)].
  - exists [], kx, ex, c. repeat split; auto. intros x [].
  - exists ((kx, ex) :: c1), k, e, c2. repeat split.
    + simpl. now rewrite Hc.
    + intros x [<-|Hx]; [exact Hlt | now apply H1].
    + exact H2.
    + exact Hr.
Qed.

Lemma evictOldest_spec (c : t) :
  cache_wf c -> c <> [] ->
  exists c1 k e c2, oldest_split c c1 k e c2 /\ evictOldest c = c1 ++ c2.
Proof.
  intros [Hnd Hk] Hne.
  destruct (evictOldest_scan_spec c Hne) as (c1 & k & e & c2 & Hs & Hscan).
  exists c1, k, e, c2. split; [exact Hs|].
  unfold evictOldest. rewrite Hscan. simpl.
  destruct Hs as (Hc & _). subst c.
  assert (Ht : Js.truthy k = true).
  { rewrite Forall_forall in Hk. apply Hk.
    unfold Js.map_keys. rewrite map_app, in_app_iff. right. now left. }
  rewrite Ht. now apply map_delete_middle.
Qed.

(** When the first entry is an oldest one, it is the one that goes. *)
Lemma evictOldest_head (c : t) k e :
  cache_wf ((k, e) :: c) ->
  (forall x, In x c -> timestamp e <= timestamp (snd x)) ->
  evictOldest ((k, e) :: c) = c.
Proof.
  intros Hwf Hold.
  destruct (evictOldest_spec ((k, e) :: c) Hwf) as (c1 & k' & e' & c2 & Hs & Hev);
    [discriminate|].
  rewrite Hev. destruct Hs as (Hc & H1 & H2).
  destruct c1 as [|x c1]; simpl in Hc.
  - now inversion Hc.
  - exfalso. inversion Hc; subst x c.
    specialize (H1 (k, e) (or_introl eq_refl)). simpl in H1.
    assert (Hin : In (k', e') (c1 ++ (k', e') :: c2))
      by (rewrite in_app_iff; right; now left).
    specialize (Hold _ Hin). simpl in Hold. lia.
Qed.

Lemma set_all_app (c : t) l1 l2 : set_all c (l1 ++ l2) = set_all (set_all c l1) l2.
Proof. apply fold_left_app. Qed.

Lemma cache_wf_set_all l : forall c, cache_wf c -> cache_wf (set_all c l).
Proof.
  induction l as [|i l IH]; intros c H; [exact H|].
  simpl. apply IH. now apply cache_wf_set.
Qed.

Lemma map_keys_entries l : Js.map_keys (map entry_of l) = map key_of l.
Proof. unfold Js.map_keys. rewrite map_map. reflexivity. Qed.

(** Below capacity, distinct new keys are appended in the order of the
    calls. *)
Lemma set_all_below_capacity l : forall c : t,
  NoDup (Js.map_keys c ++ map key_of l) ->
  Js.map_size c + Z.of_nat (length l) <= maxSize ->
  set_all c l = c ++ map entry_of l.
Proof.
  induction l as [|i l IH]; intros c Hnd Hsz.
  - simpl. now rewrite app_nil_r.
  - cbn [set_all fold_left]. fold (set_all (set c (ins_text i) (ins_translated i)
      (ins_sourceLang i) (ins_targetLang i) (ins_now i)) l).
    assert (Hset : set c (ins_text i) (ins_translated i) (ins_sourceLang i)
                     (ins_targetLang i) (ins_now i) = c ++ [entry_of i]).
    { unfold set.
      destruct (Js.map_size c >=? maxSize) eqn:E.
      - rewrite Z.geb_le in E. cbn [length] in Hsz. lia.
      - apply map_set_fresh. intros Hin.
        apply NoDup_remove_2 in Hnd. apply Hnd.
        rewrite in_app_iff. now left. }
    rewrite Hset, IH.
    + rewrite <- app_assoc. reflexivity.
    + unfold Js.map_keys. rewrite map_app, <- app_assoc. exact Hnd.
    + unfold Js.map_size in *. rewrite length_app. cbn [length] in *. lia.
Qed.

(** Strictly increasing clock readings put the first call's entry below all
    later ones. *)
Lemma sorted_head_oldest i l :
  StronglySorted Z.lt (map ins_now (i :: l)) ->
  forall x, In x (map entry_of l) -> timestamp (snd (entry_of i)) <= timestamp (snd x).
Proof.
  intros Hs x Hx. apply in_map_iff in Hx. destruct Hx as (j & <- & Hj).
  simpl in Hs. apply StronglySorted_inv in Hs. destruct Hs as [_ Hall].
  rewrite Forall_forall in Hall.
  specialize (Hall (ins_now j) (in_map ins_now _ _ Hj)). simpl. lia.
Qed.

(** After [maxSize + 1] calls with distinct keys and increasing clock
    readings the cache holds the entries of all calls but the first. *)
Lemma set_all_overflow first rest :
  Z.of_nat (length (first :: rest)) = maxSize + 1 ->
  NoDup (map key_of (first :: rest)) ->
  StronglySorted Z.lt (map ins_now (first :: rest)) ->
  set_all empty (first :: rest) = map entry_of rest.
Proof.
  intros Hlen Hnd Hs.
  destruct (exists_last (l := rest)) as (rest' & lst & ->).
  { intros ->. simpl in Hlen. unfold maxSize in Hlen. lia. }
  change (first :: rest' ++ [lst]) with ((first :: rest') ++ [lst]) in *.
  rewrite length_app in Hlen. cbn [length] in Hlen.
  rewrite map_app in Hnd, Hs.
  rewrite set_all_app, (set_all_below_capacity (first :: rest') empty).
  - unfold empty. cbn [app set_all fold_left map]. unfold set.
    replace (Js.map_size (entry_of first :: map entry_of rest') >=? maxSize)
      with true.
    2:{ symmetry. apply Z.geb_le. unfold Js.map_size. cbn [length].
        rewrite length_map. lia. }
    assert (Hev : evictOldest (entry_of first :: map entry_of rest')
                  = map entry_of rest').
    { apply (evictOldest_head (map entry_of rest') (key_of first)
               {| translated := ins_translated first;
                  timestamp := ins_now first |}).
      - change (cache_wf (map entry_of (first :: rest'))). split.
        + apply NoDup_app_remove_r in Hnd. now rewrite map_keys_entries.
        + apply Forall_forall. intros k Hk.
          rewrite map_keys_entries in Hk.
          apply in_map_iff in Hk. destruct Hk as (j & <- & _).
          apply generateKey_truthy.
      - apply (sorted_head_oldest first rest').
        clear -Hs. remember (map ins_now (first :: rest')) as a.
        remember (map ins_now [lst]) as b. clear -Hs.
        induction a as [|x a IH]; [constructor|].
        simpl in Hs. apply StronglySorted_inv in Hs. destruct Hs as [H1 H2].
        constructor; [auto|]. rewrite Forall_app in H2. tauto. }
    rewrite Hev, map_app. apply map_set_fresh.
    rewrite map_keys_entries. intros Hin.
    apply NoDup_remove_2 in Hnd. apply Hnd.
    rewrite app_nil_r. now right.
  - simpl. apply NoDup_app_remove_r in Hnd. exact Hnd.
  - unfold Js.map_size, empty, maxSize in *. cbn [length] in *. lia.
Qed.

(** C5. At capacity, [set] first evicts exactly one entry, an oldest one
    (the first of them in insertion order, should several share the smallest
    timestamp), and then inserts or overwrites the given key.  Consequently,
    after [maxSize + 1] calls with distinct keys and strictly increasing
    clock readings on an empty cache, the entry of the first call, the
    globally oldest, is absent and each of the other [maxSize] is read back
    by [get] as long as it has not expired. *)
Theorem set_evicts_oldest :
  (forall (c : t) text tr src tgt now,
     cache_wf c ->
     maxSize <= Js.map_size c ->
     exists c1 k e c2,
       oldest_split c c1 k e c2
       /\ set c text tr src tgt now
          = cache_set (c1 ++ c2) (generateKey text src tgt)
              {| translated := tr; timestamp := now |})
  /\ (forall first rest,
        Z.of_nat (length (first :: rest)) = maxSize + 1 ->
        NoDup (map key_of (first :: rest)) ->
        StronglySorted Z.lt (map ins_now (first :: rest)) ->
        let c := set_all empty (first :: rest) in
        Js.map_size c = maxSize
        /\ (forall i, In i rest -> ins_now first < ins_now i)
        /\ cache_get c (key_of first) = None
        /\ (forall now,
              get c (ins_text first) (ins_sourceLang first)
                (ins_targetLang first) now = (None, c))
        /\ (forall i now,
              In i rest ->
              now - ins_now i <= ttl ->
              get c (ins_text i) (ins_sourceLang i) (ins_targetLang i) now
              = (Some (ins_translated i), c))).
Proof.
  split.
  - intros c text tr src tgt now Hwf Hsz.
    assert (Hne : c <> []).
    { intros ->. unfold Js.map_size, maxSize in Hsz. simpl in Hsz. lia. }
    destruct (evictOldest_spec c Hwf Hne) as (c1 & k & e & c2 & Hs & Hev).
    exists c1, k, e, c2. split; [exact Hs|].
    unfold set. rewrite <- Hev.
    destruct (Js.map_size c >=? maxSize) eqn:E; [reflexivity|].
    rewrite Z.geb_leb, Z.leb_gt in E. lia.
  - intros first rest Hlen Hnd Hs c. subst c.
    rewrite (set_all_overflow first rest Hlen Hnd Hs).
    assert (Hkeys : NoDup (Js.map_keys (map entry_of rest))).
    { rewrite map_keys_entries. now inversion Hnd. }
    assert (Hfirst : cache_get (map entry_of rest) (key_of first) = None).
    { apply map_get_None. rewrite map_keys_entries. now inversion Hnd. }
    repeat split.
    + unfold Js.map_size. rewrite length_map. cbn [length] in Hlen. lia.
    + intros i Hi. simpl in Hs. apply StronglySorted_inv in Hs.
      destruct Hs as [_ Hall]. rewrite Forall_forall in Hall.
      apply Hall. now apply in_map.
    + exact Hfirst.
    + intros now. now apply get_absent.
    + intros i now Hi Hage.
      apply (get_hit _ _ _ _
               {| translated := ins_translated i; timestamp := ins_now i |});
        [|exact Hage].
      apply map_get_NoDup_In; [exact Hkeys|].
      change (In (entry_of i) (map entry_of rest)). now apply in_map.
Qed.

Lemma numbered_keys_NoDup n : NoDup (map key_of (map numbered (seq 0 n))).
Proof.
  rewrite map_map. apply Injective_map_NoDup; [|apply seq_NoDup].
  intros a b H. unfold key_of, numbered, generateKey in H. simpl in H.
  injection H as H. now apply Nat2N.inj.
Qed.

Lemma numbered_times_sorted n : forall s,
  StronglySorted Z.lt (map ins_now (map numbered (seq s n))).
Proof.
  induction n as [|n IH]; intros s; simpl; constructor; [apply IH|].
  apply Forall_forall. intros z Hz. rewrite map_map in Hz.
  apply in_map_iff in Hz. destruct Hz as (k & <- & Hk).
  apply in_seq in Hk. simpl. lia.
Qed.

Lemma numbered_cache_wf n : cache_wf (map entry_of (map numbered (seq 0 n))).
Proof.
  split.
  - rewrite map_keys_entries. apply numbered_keys_NoDup.
  - apply Forall_forall. intros k Hk. rewrite map_keys_entries in Hk.
    apply in_map_iff in Hk. destruct Hk as (i & <- & _).
    apply generateKey_truthy.
Qed.

(** Both halves at work: a cache that holds the thousand entries of the
    numbered calls 0 to 999 is at capacity, and a further [set] evicts one
    oldest entry; a thousand and one numbered calls on an empty cache lose
    the entry of call 0, while that of call 1000 is read back. *)
Lemma set_evicts_oldest_witness :
  (exists c1 k e c2,
     oldest_split (map entry_of (map numbered (seq 0 1000))) c1 k e c2
     /\ set (map entry_of (map numbered (seq 0 1000)))
          [1000%N] [1000%N] (Js.lit "en"%string) (Js.lit "ko"%string) 1000
        = cache_set (c1 ++ c2)
            (generateKey [1000%N] (Js.lit "en"%string) (Js.lit "ko"%string))
            {| translated := [1000%N]; timestamp := 1000 |})
  /\ cache_get (set_all empty (numbered 0 :: map numbered (seq 1 1000)))
       (key_of (numbered 0))
     = None
  /\ get (set_all empty (numbered 0 :: map numbered (seq 1 1000)))
       [1000%N] (Js.lit "en"%string) (Js.lit "ko"%string) 2000
     = (Some [1000%N], set_all empty (numbered 0 :: map numbered (seq 1 1000))).
Proof.
  split.
  - apply (proj1 set_evicts_oldest).
    + apply numbered_cache_wf.
    + unfold Js.map_size. rewrite !length_map, length_seq. reflexivity.
  - destruct (proj2 set_evicts_oldest (numbered 0) (map numbered (seq 1 1000)))
      as (_ & _ & H0 & _ & Hget).
    + cbn [length]. rewrite length_map, length_seq. reflexivity.
    + apply (numbered_keys_NoDup 1001).
    + apply (numbered_times_sorted 1001 0).
    + split; [exact H0|].
      apply (Hget (numbered 1000) 2000).
      * apply in_map, in_seq. lia.
      * discriminate.
Defined.

End CacheEviction.

(* ================================================================== *)
(** * TranslationCache: splitting a batch *)

Section CacheBatch.
Import TranslationCache.
Local Open Scope nat_scope.

Variable clock : nat -> Z.
Variables sourceLang targetLang : Js.string.

Local Abbreviation loop := (getMultiple_from clock sourceLang targetLang).

(** What one pass over [texts], started at position [i], adds to the batch:
    [hits] to [cached], [misses] to [uncached]. *)
Lemma getMultiple_from_spec (texts : list Js.string) :
  forall (i : nat) (c : t) (b : Batch),
    (forall k, In k (Js.map_keys (cached b)) -> k < i) ->
    exists hits misses,
      cached (fst (loop texts i c b)) = cached b ++ hits
      /\ uncached (fst (loop texts i c b)) = uncached b ++ misses
      /\ Permutation (Js.map_keys hits ++ map index misses)
           (seq i (length texts))
      /\ StronglySorted lt (map index misses)
      /\ (forall u, In u misses ->
            i <= index u /\ nth_error texts (index u - i) = Some (text u))
      /\ (forall kv, In kv hits -> Js.truthy (snd kv) = true).
Proof.
  induction texts as [|text rest IH]; intros i c b Hlt.
  - exists [], []. rewrite !app_nil_r. simpl.
    split; [reflexivity|]. split; [reflexivity|]. split; [apply perm_nil|].
    split; [constructor|]. split; intros ? [].
  - cbn [getMultiple_from].
    destruct (get c text sourceLang targetLang (clock i)) as [r c1].
    set (miss := {| index := i; text := text |}).
    assert (Hmiss :
      forall b1, cached b1 = cached b -> uncached b1 = uncached b ++ [miss] ->
      exists hits misses,
        cached (fst (loop rest (S i) c1 b1)) = cached b ++ hits
        /\ uncached (fst (loop rest (S i) c1 b1)) = uncached b ++ misses
        /\ Permutation (Js.map_keys hits ++ map index misses)
             (seq i (length (text :: rest)))
        /\ StronglySorted lt (map index misses)
        /\ (forall u, In u misses ->
              i <= index u
              /\ nth_error (text :: rest) (index u - i) = Some (TranslationCache.text u))
        /\ (forall kv, In kv hits -> Js.truthy (snd kv) = true)).
    { intros b1 Hc Hu.
      destruct (IH (S i) c1 b1) as (hits & misses & E1 & E2 & Hp & Hs & Ht & Hv).
      { rewrite Hc. intros k Hk. specialize (Hlt k Hk). lia. }
      exists hits, (miss :: misses).
      rewrite E1, E2, Hc, Hu, <- app_assoc.
      split; [reflexivity|]. split; [reflexivity|].
      split; [|split; [|split; [|exact Hv]]].
      - cbn [map length seq]. apply Permutation_sym, Permutation_cons_app.
        now apply Permutation_sym.
      - cbn [map]. constructor; [exact Hs|].
        apply Forall_forall. intros k Hk.
        assert (Hin : In k (seq (S i) (length rest))).
        { apply (Permutation_in _ Hp). rewrite in_app_iff. now right. }
        apply in_seq in Hin. simpl. lia.
      - intros u [<-|Hu'].
        + split; [simpl; lia | simpl; now rewrite Nat.sub_diag].
        + apply Ht in Hu'. destruct Hu' as [Hle Hnth]. split; [lia|].
          replace (index u - i) with (S (index u - S i)) by lia. exact Hnth. }
    destruct r as [s|]; [destruct (Js.truthy s) eqn:Es|].
    + destruct (IH (S i) c1
                  {| cached := cached_set (cached b) i s;
                     uncached := uncached b |})
        as (hits & misses & E1 & E2 & Hp & Hs & Ht & Hv).
      { cbn [cached]. intros k Hk. apply map_keys_set in Hk.
        destruct Hk as [Hk| ->]; [specialize (Hlt k Hk)|]; lia. }
      assert (Hfresh : cached_set (cached b) i s = cached b ++ [(i, s)]).
      { apply map_set_fresh. intros Hin. specialize (Hlt i Hin). lia. }
      exists ((i, s) :: hits), misses.
      rewrite E1, E2. cbn [cached uncached]. rewrite Hfresh, <- app_assoc.
      split; [reflexivity|]. split; [reflexivity|].
      split; [|split; [exact Hs|split]].
      * cbn [Js.map_keys map app length seq fst]. now constructor.
      * intros u Hu'. apply Ht in Hu'. destruct Hu' as [Hle Hnth].
        split; [lia|].
        replace (index u - i) with (S (index u - S i)) by lia. exact Hnth.
      * intros kv [<-|Hkv]; [exact Es | now apply Hv].
    + now apply Hmiss.
    + now apply Hmiss.
Qed.

Lemma NoDup_app_disjoint {A} (l1 l2 : list A) x :
  NoDup (l1 ++ l2) -> In x l1 -> ~ In x l2.
Proof.
  induction l1 as [|a l1 IH]; simpl; intros Hnd Hin; [contradiction|].
  inversion Hnd as [|? ? Ha Hnd']; subst.
  destruct Hin as [->|Hin]; [|auto].
  intros Hx. apply Ha. rewrite in_app_iff. now right.
Qed.

(** The batch read keeps the invariant of the private map. *)
Lemma cache_wf_getMultiple_from (texts : list Js.string) :
  forall (i : nat) (c : t) (b : Batch),
    cache_wf c -> cache_wf (snd (loop texts i c b)).
Proof.
  induction texts as [|text rest IH]; intros i c b Hwf; [exact Hwf|].
  cbn [getMultiple_from].
  pose proof (cache_wf_get c text sourceLang targetLang (clock i) Hwf) as Hwf1.
  destruct (get c text sourceLang targetLang (clock i)) as [r c1].
  now apply IH.
Qed.

(** Listed together, the keys of [cached] and the indices of [uncached]
    are the positions of the input, in some order. *)
Lemma getMultiple_indices (c : t) (texts : list Js.string) :
  let b := fst (getMultiple clock c texts sourceLang targetLang) in
  Permutation (Js.map_keys (cached b) ++ map index (uncached b))
    (seq 0 (length texts)).
Proof.
  intros b. subst b. unfold getMultiple.
  destruct (getMultiple_from_spec texts 0 c {| cached := []; uncached := [] |})
    as (hits & misses & E1 & E2 & Hp & _).
  { intros k []. }
  rewrite E1, E2. exact Hp.
Qed.

(** C4. For every list of texts, every cache state and every run of the
    clock, [getMultiple] returns index sets that partition [0, n): each index
    below [n] is a key of [cached] or the index of an [uncached] item, never
    both, neither side repeats an index or holds one from outside; and
    [uncached] lists its indices in increasing order, each with the text at
    that position of the input. *)
Theorem getMultiple_partition (c : t) (texts : list Js.string) :
  let b := fst (getMultiple clock c texts sourceLang targetLang) in
  let hit := Js.map_keys (cached b) in
  let miss := map index (uncached b) in
  Permutation (hit ++ miss) (seq 0 (length texts))
  /\ (forall i, i < length texts ->
        (In i hit /\ ~ In i miss) \/ (~ In i hit /\ In i miss))
  /\ (forall i, In i hit \/ In i miss -> i < length texts)
  /\ NoDup hit
  /\ NoDup miss
  /\ StronglySorted lt miss
  /\ (forall u, In u (uncached b) -> nth_error texts (index u) = Some (text u)).
Proof.
  intros b hit miss. subst b hit miss. unfold getMultiple.
  destruct (getMultiple_from_spec texts 0 c {| cached := []; uncached := [] |})
    as (hits & misses & E1 & E2 & Hp & Hs & Ht & _).
  { intros k []. }
  rewrite E1, E2. cbn [cached uncached app].
  assert (Hnd : NoDup (Js.map_keys hits ++ map index misses)).
  { apply (Permutation_NoDup (Permutation_sym Hp)), seq_NoDup. }
  split; [exact Hp|]. split; [|split; [|split; [|split; [|split]]]].
  - intros i Hi.
    assert (Hin : In i (Js.map_keys hits ++ map index misses)).
    { apply (Permutation_in _ (Permutation_sym Hp)), in_seq. lia. }
    apply in_app_or in Hin. destruct Hin as [Hin|Hin].
    + left. split; [exact Hin|]. now apply (NoDup_app_disjoint _ _ _ Hnd).
    + right. split; [|exact Hin].
      intros Hh. now apply (NoDup_app_disjoint _ _ _ Hnd Hh).
  - intros i Hi.
    assert (Hin : In i (seq 0 (length texts))).
    { apply (Permutation_in _ Hp), in_or_app. exact Hi. }
    apply in_seq in Hin. lia.
  - now apply NoDup_app_remove_r in Hnd.
  - now apply NoDup_app_remove_l in Hnd.
  - exact Hs.
  - intros u Hu. destruct (Ht u Hu) as [_ Hnth].
    now rewrite Nat.sub_0_r in Hnth.
Qed.

(** An entry that holds the empty string reads as a miss for the batch:
    [get] returns the empty string or, once expired, [null], and both are
    falsy. *)
Lemma get_empty_entry_falsy (c : t) text now :
  (forall e, cache_get c (generateKey text sourceLang targetLang) = Some e ->
             translated e = []) ->
  Js.truthy_opt (fst (get c text sourceLang targetLang now)) = false.
Proof.
  intros He. unfold get.
  destruct (cache_get c (generateKey text sourceLang targetLang)) as [e|];
    [|reflexivity].
  destruct (now - timestamp e >? ttl)%Z; [reflexivity|].
  simpl. now rewrite (He e eq_refl).
Qed.

Lemma getMultiple_from_empty_entry (texts : list Js.string) :
  forall (i : nat) (c : t) (b : Batch) (j : nat) (text : Js.string),
    (forall k, In k (Js.map_keys (cached b)) -> k < i) ->
    nth_error texts j = Some text ->
    (forall e, cache_get c (generateKey text sourceLang targetLang) = Some e ->
               translated e = []) ->
    In (i + j) (map index (uncached (fst (loop texts i c b)))).
Proof.
  induction texts as [|text0 rest IH]; intros i c b j text Hlt Hnth He.
  - destruct j; discriminate.
  - cbn [getMultiple_from].
    destruct j as [|j]; cbn [nth_error] in Hnth.
    + injection Hnth as ->.
      pose proof (get_empty_entry_falsy c text (clock i) He) as Hf.
      destruct (get c text sourceLang targetLang (clock i)) as [r c1].
      cbn [fst] in Hf.
      assert (Hacc : forall b1, cached b1 = cached b ->
                uncached b1 = uncached b ++ [{| index := i; text := text |}] ->
                In (i + 0) (map index (uncached (fst (loop rest (S i) c1 b1))))).
      { intros b1 Hc Hu.
        destruct (getMultiple_from_spec rest (S i) c1 b1)
          as (hits & misses & _ & E2 & _).
        { rewrite Hc. intros k Hk. specialize (Hlt k Hk). lia. }
        rewrite E2, Hu, !map_app, !in_app_iff. left. right.
        left. simpl. lia. }
      destruct r as [s|]; [|now apply Hacc].
      simpl in Hf. rewrite Hf. now apply Hacc.
    + pose proof (fun e => get_only_deletes c text0 sourceLang targetLang
                             (clock i) (generateKey text sourceLang targetLang) e)
        as Hdel.
      destruct (get c text0 sourceLang targetLang (clock i)) as [r c1].
      cbn [snd] in Hdel.
      replace (i + S j) with (S i + j) by lia.
      apply IH with (text := text); [|exact Hnth|].
      * intros k Hk.
        destruct r as [s|]; [destruct (Js.truthy s)|]; cbn [cached] in Hk.
        -- apply map_keys_set in Hk.
           destruct Hk as [Hk| ->]; [specialize (Hlt k Hk)|]; lia.
        -- specialize (Hlt k Hk). lia.
        -- specialize (Hlt k Hk). lia.
      * intros e Hce. apply He. now apply Hdel.
Qed.

(** C10. [getMultiple] counts an index as cached only when the stored
    translation is a non-empty string.  For an unexpired entry that holds the
    empty string, [get] returns that string (a hit), yet every index of the
    batch whose text maps to the entry is put in [uncached] and not in
    [cached]; and every value of the [cached] map is non-empty. *)
Theorem getMultiple_empty_translation (c : t) (texts : list Js.string)
  (i : nat) (text : Js.string) (e : CacheEntry) (now : Z)
  (Hnth : nth_error texts i = Some text)
  (Hentry : cache_get c (generateKey text sourceLang targetLang) = Some e)
  (Hempty : translated e = [])
  (Hfresh : (now - timestamp e <= ttl)%Z) :
  let b := fst (getMultiple clock c texts sourceLang targetLang) in
  get c text sourceLang targetLang now = (Some [], c)
  /\ In i (map index (uncached b))
  /\ ~ In i (Js.map_keys (cached b))
  /\ (forall k v, In (k, v) (cached b) -> v <> []).
Proof.
  intros b.
  assert (Hin : In i (map index (uncached b))).
  { subst b. unfold getMultiple.
    apply (getMultiple_from_empty_entry texts 0 c _ i text);
      [intros k [] | exact Hnth |].
    intros e' He'. congruence. }
  split; [|split; [exact Hin | split]].
  - rewrite <- Hempty. now apply get_hit.
  - intros Hc.
    pose proof (getMultiple_indices c texts) as Hp.
    cbv zeta in Hp. fold b in Hp.
    assert (Hnd : NoDup (Js.map_keys (cached b) ++ map index (uncached b))).
    { apply (Permutation_NoDup (Permutation_sym Hp)), seq_NoDup. }
    now apply (NoDup_app_disjoint _ _ _ Hnd Hc).
  - intros k v Hkv. subst b. unfold getMultiple in Hkv.
    destruct (getMultiple_from_spec texts 0 c {| cached := []; uncached := [] |})
      as (hits & misses & E1 & _ & _ & _ & _ & Hv); [intros ? []|].
    rewrite E1 in Hkv. cbn [cached app] in Hkv.
    apply Hv in Hkv. simpl in Hkv. intros ->. discriminate.
Qed.

End CacheBatch.

(** The empty translation of [Hello], stored at time 0, in a batch of two
    texts read at time 5: index 1 is reported uncached. *)
Lemma getMultiple_empty_translation_witness :
  let c := TranslationCache.set TranslationCache.empty (Js.lit "Hello"%string)
             [] (Js.lit "en"%string) (Js.lit "ko"%string) 0 in
  let b := fst (TranslationCache.getMultiple (fun _ => 5) c
                  [Js.lit "Bye"%string; Js.lit "Hello"%string]
                  (Js.lit "en"%string) (Js.lit "ko"%string)) in
  TranslationCache.get c (Js.lit "Hello"%string) (Js.lit "en"%string)
    (Js.lit "ko"%string) 5 = (Some [], c)
  /\ In 1%nat (map TranslationCache.index (TranslationCache.uncached b))
  /\ ~ In 1%nat (Js.map_keys (TranslationCache.cached b))
  /\ (forall k v, In (k, v) (TranslationCache.cached b) -> v <> []).
Proof.
  intros c b.
  apply (getMultiple_empty_translation (fun _ => 5) (Js.lit "en"%string)
           (Js.lit "ko"%string) c
           [Js.lit "Bye"%string; Js.lit "Hello"%string] 1 (Js.lit "Hello"%string)
           {| TranslationCache.translated := [];
              TranslationCache.timestamp := 0 |} 5).
  - reflexivity.
  - reflexivity.
  - reflexivity.
  - vm_compute. discriminate.
Defined.

(* ================================================================== *)
(** * DomTranslator: the guard, the flag and the undo log *)

Section Translator.
Import DomTranslator.

Lemma eqb_true_iff (a b : Js.string) : Js.eqb a b = true <-> a = b.
Proof. unfold Js.eqb. destruct (Js.string_eq_dec a b); split; congruence. Qed.


(** The loop appends [records_of] the batch to the log and substitutes them
    in order. *)
Lemma applyTranslations_loop_spec ns : forall ts log d,
  applyTranslations_loop ns ts log d
  = (log ++ records_of ns ts, fold_left substitute (records_of ns ts) d).
Proof.
  induction ns as [|nodeInfo ns IH]; intros ts log d.
  - simpl. now rewrite app_nil_r.
  - destruct ts as [|[tr|] ts]; cbn [applyTranslations_loop records_of].
    + now rewrite app_nil_r.
    + destruct (Js.eqb (original tr) (translated tr)); [apply IH|].
      rewrite IH, <- app_assoc. reflexivity.
    + apply IH.
Qed.

Lemma applyTranslations_matched (self : t) d ns ts :
  length ns = length ts ->
  applyTranslations self d ns ts
  = ({| translations := translations self ++ records_of ns ts;
        isTranslated := true |},
     fold_left substitute (records_of ns ts) d).
Proof.
  intros Hlen. unfold applyTranslations.
  rewrite (proj2 (Nat.eqb_eq _ _) Hlen). cbn [negb].
  now rewrite applyTranslations_loop_spec.
Qed.

Lemma records_of_noop ns : forall ts, Forall noop ts -> records_of ns ts = [].
Proof.
  induction ns as [|nodeInfo ns IH]; intros ts H; [reflexivity|].
  destruct ts as [|[tr|] ts]; cbn [records_of]; [reflexivity| |].
  - inversion H as [|? ? Hn Hrest]; subst. simpl in Hn.
    rewrite (proj2 (eqb_true_iff _ _) Hn). now apply IH.
  - inversion H; subst. now apply IH.
Qed.

(** C7. When the two arrays differ in length the call does nothing: the
    page, the undo log and the flag are what they were. *)
Theorem applyTranslations_length_mismatch (self : t) (d : Dom.Document)
  (textNodes : list TextNodeInfo) (translatedTexts : list (option TranslatedText))
  (Hlen : length textNodes <> length translatedTexts) :
  applyTranslations self d textNodes translatedTexts = (self, d).
Proof.
  unfold applyTranslations.
  destruct (length textNodes =? length translatedTexts)%nat eqn:E;
    [|reflexivity].
  apply Nat.eqb_eq in E. contradiction.
Qed.

Lemma applyTranslations_length_mismatch_witness :
  applyTranslations init (page (Js.lit " Hello "%string))
    [{| node := 0%nat; originalText := Js.lit "Hello"%string |};
     {| node := 1%nat; originalText := Js.lit "Hello"%string |}]
    [Some {| original := Js.lit "Hello"%string;
             translated := Js.lit "Annyeong"%string |}]
  = (init, page (Js.lit " Hello "%string)).
Proof.
  apply applyTranslations_length_mismatch. simpl. discriminate.
Defined.

(** C1, as the code has it.  A batch of matching length in which every pair
    is a no-op appends no record and changes no node, but the flag is set:
    every call that passes the length check ends with [isTranslated] true,
    whether or not anything was substituted. *)
Theorem applyTranslations_noop_batch (self : t) (d : Dom.Document)
  (textNodes : list TextNodeInfo) (translatedTexts : list (option TranslatedText))
  (Hlen : length textNodes = length translatedTexts) :
  isTranslated (fst (applyTranslations self d textNodes translatedTexts)) = true
  /\ (Forall noop translatedTexts ->
        applyTranslations self d textNodes translatedTexts
        = ({| translations := translations self; isTranslated := true |}, d)).
Proof.
  rewrite (applyTranslations_matched self d _ _ Hlen). split; [reflexivity|].
  intros Hn. rewrite (records_of_noop _ _ Hn). simpl. now rewrite app_nil_r.
Qed.

Lemma applyTranslations_noop_batch_witness :
  applyTranslations init (page (Js.lit " Hello "%string))
    [{| node := 0%nat; originalText := Js.lit "Hello"%string |}]
    [Some {| original := Js.lit "Hello"%string;
             translated := Js.lit "Hello"%string |}]
  = ({| translations := []; isTranslated := true |},
     page (Js.lit " Hello "%string)).
Proof.
  apply (applyTranslations_noop_batch init (page (Js.lit " Hello "%string))).
  - reflexivity.
  - repeat constructor.
Defined.

(** C1 as stated fails: on a fresh translator, a one-pair batch whose
    translation equals its original leaves the log empty but the flag
    true. *)
Lemma applyTranslations_noop_batch_counterexample :
  let textNodes := [{| node := 0%nat; originalText := Js.lit "Hello"%string |}] in
  let translatedTexts :=
    [Some {| original := Js.lit "Hello"%string;
             translated := Js.lit "Hello"%string |}] in
  let after :=
    fst (applyTranslations init (page (Js.lit " Hello "%string))
           textNodes translatedTexts) in
  length textNodes = length translatedTexts
  /\ Forall noop translatedTexts
  /\ isTranslated init = false
  /\ translations after = []
  /\ isTranslated after <> false.
Proof.
  cbv zeta. repeat split.
  - repeat constructor.
  - discriminate.
Qed.

(** ** The undo log never holds a no-op, for aligned batches *)






(** ** Restoring *)

(** Substituting or restoring one node leaves every other node alone and
    never changes whether a node is attached. *)
Lemma replaceNodeText_other d node s n :
  n <> node -> replaceNodeText d node s n = d n.
Proof.
  intros Hne. unfold replaceNodeText, Dom.setTextContent.
  destruct (Nat.eq_dec n node); [contradiction | reflexivity].
Qed.

Lemma replaceNodeText_same d node s :
  Dom.textContent (replaceNodeText d node s node)
  = Js.leadingWhitespace (Dom.textContent (d node)) ++ s
    ++ Js.trailingWhitespace (Dom.textContent (d node)).
Proof.
  unfold replaceNodeText, Dom.setTextContent.
  destruct (Nat.eq_dec node node); [reflexivity | contradiction].
Qed.

Lemma replaceNodeText_parentNode d node s n :
  Dom.parentNode (replaceNodeText d node s n) = Dom.parentNode (d n).
Proof.
  unfold replaceNodeText, Dom.setTextContent.
  destruct (Nat.eq_dec n node); reflexivity.
Qed.

Lemma restore_record_detached d r n :
  Dom.parentNode (d n) = false -> restore_record d r n = d n.
Proof.
  intros Hn. unfold restore_record.
  destruct (Dom.parentNode (d (rec_node r))) eqn:E; [|reflexivity].
  apply replaceNodeText_other. intros ->. congruence.
Qed.

Lemma restore_detached log : forall d n,
  Dom.parentNode (d n) = false -> fold_left restore_record log d n = d n.
Proof.
  induction log as [|r log IH]; intros d n Hn; [reflexivity|].
  cbn [fold_left]. rewrite IH.
  - now apply restore_record_detached.
  - now rewrite restore_record_detached.
Qed.

(** Whatever the state, a second [restoreOriginal] finds the flag down and
    returns at once. *)
Lemma restoreOriginal_twice (self : t) (d : Dom.Document) :
  let w1 := restoreOriginal self d in
  restoreOriginal (fst w1) (snd w1) = w1.
Proof.
  unfold restoreOriginal. destruct (isTranslated self) eqn:E; simpl.
  - reflexivity.
  - now rewrite E.
Qed.

(** While the flag is down the log is empty. *)
Lemma step_flag_guards_log (w : t * Dom.Document) (c : call) :
  (isTranslated (fst w) = false -> translations (fst w) = []) ->
  isTranslated (fst (step w c)) = false -> translations (fst (step w c)) = [].
Proof.
  intros Hinv. destruct c as [ns ts| | |d']; cbn [step].
  - unfold applyTranslations.
    destruct (negb (length ns =? length ts)%nat); [exact Hinv|].
    rewrite applyTranslations_loop_spec. simpl. discriminate.
  - unfold restoreOriginal.
    destruct (negb (isTranslated (fst w))); [exact Hinv | reflexivity].
  - reflexivity.
  - exact Hinv.
Qed.

Lemma run_flag_guards_log (calls : list call) (d : Dom.Document) :
  isTranslated (fst (run calls d)) = false -> translations (fst (run calls d)) = [].
Proof.
  unfold run.
  assert (H0 : isTranslated (fst (init, d)) = false ->
               translations (fst (init, d)) = []) by reflexivity.
  revert H0. generalize (init, d) as w.
  induction calls as [|c calls IH]; intros w Hw; [exact Hw|].
  cbn [fold_left]. apply IH. now apply step_flag_guards_log.
Qed.

(** C3. After any history, [restoreOriginal] twice is [restoreOriginal]
    once: the second call returns the state and the page of the first
    unchanged.  After the first call the log is empty and the flag down, and
    a node without parent has been skipped: it is as it was. *)
Theorem restoreOriginal_idempotent (calls : list call) (d : Dom.Document) :
  let w := run calls d in
  let w1 := restoreOriginal (fst w) (snd w) in
  let w2 := restoreOriginal (fst w1) (snd w1) in
  w2 = w1
  /\ translations (fst w1) = []
  /\ isTranslated (fst w1) = false
  /\ (forall n, Dom.parentNode (snd w n) = false -> snd w1 n = snd w n).
Proof.
  intros w w1 w2. split; [apply restoreOriginal_twice|].
  subst w1 w2. unfold restoreOriginal.
  destruct (isTranslated (fst w)) eqn:E; cbn [negb fst snd translations isTranslated].
  - repeat split. intros n Hn. now apply restore_detached.
  - repeat split; [|exact E]. now apply run_flag_guards_log.
Qed.

End Translator.

(* ================================================================== *)
(** * White space around a text *)

Section Whitespace.

Lemma leadingWhitespace_all s : forallb Js.isWhiteSpace (Js.leadingWhitespace s) = true.
Proof.
  induction s as [|c s IH]; simpl; [reflexivity|].
  destruct (Js.isWhiteSpace c) eqn:E; simpl; [now rewrite E | reflexivity].
Qed.

Lemma leading_trimStart s : s = Js.leadingWhitespace s ++ Js.trimStart s.
Proof.
  induction s as [|c s IH]; simpl; [reflexivity|].
  destruct (Js.isWhiteSpace c); simpl; [now f_equal | reflexivity].
Qed.

Lemma trimStart_starts_bare s :
  Js.trimStart s <> [] -> Js.starts_bare (Js.trimStart s) = true.
Proof.
  induction s as [|c s IH]; simpl; [congruence|].
  destruct (Js.isWhiteSpace c) eqn:E; [exact IH|].
  intros _. simpl. now rewrite E.
Qed.

(** White space in front of a text that starts bare is all the leading
    white space there is. *)
Lemma leadingWhitespace_app l s :
  forallb Js.isWhiteSpace l = true -> Js.starts_bare s = true ->
  Js.leadingWhitespace (l ++ s) = l.
Proof.
  intros Hl Hs. induction l as [|c l IH]; simpl in *.
  - destruct s as [|c s]; [discriminate|]. simpl in *.
    now destruct (Js.isWhiteSpace c).
  - apply andb_true_iff in Hl. destruct Hl as [Hc Hl].
    rewrite Hc. f_equal. auto.
Qed.

Lemma trailingWhitespace_all_ws s :
  forallb Js.isWhiteSpace s = true -> Js.trailingWhitespace s = s.
Proof. intros H. destruct s; simpl in *; [reflexivity | now rewrite H]. Qed.

(** White space behind a character that is none is all the trailing white
    space there is. *)
Lemma trailingWhitespace_app a c r :
  Js.isWhiteSpace c = false -> forallb Js.isWhiteSpace r = true ->
  Js.trailingWhitespace (a ++ c :: r) = r.
Proof.
  intros Hc Hr. induction a as [|x a IH].
  - cbn [app Js.trailingWhitespace forallb]. rewrite Hc. cbn [andb].
    now apply trailingWhitespace_all_ws.
  - cbn [app Js.trailingWhitespace].
    replace (forallb Js.isWhiteSpace (x :: a ++ c :: r)) with false; [exact IH|].
    symmetry. cbn [forallb]. rewrite forallb_app. cbn [forallb].
    rewrite Hc. cbn [andb]. now rewrite !andb_false_r.
Qed.

(** A text that ends bare, split at its last character. *)
Lemma ends_bare_split s :
  Js.starts_bare (rev s) = true ->
  exists a c, s = a ++ [c] /\ Js.isWhiteSpace c = false.
Proof.
  intros H. destruct (rev s) as [|c u] eqn:E; [discriminate|].
  exists (rev u), c. split.
  - rewrite <- (rev_involutive s), E. reflexivity.
  - simpl in H. now destruct (Js.isWhiteSpace c).
Qed.

Lemma trailingWhitespace_bare_app l s r :
  Js.starts_bare (rev s) = true -> forallb Js.isWhiteSpace r = true ->
  Js.trailingWhitespace (l ++ s ++ r) = r.
Proof.
  intros Hs Hr. destruct (ends_bare_split s Hs) as (a & c & -> & Hc).
  replace (l ++ (a ++ [c]) ++ r) with ((l ++ a) ++ c :: r)
    by (now rewrite <- !app_assoc).
  now apply trailingWhitespace_app.
Qed.

(** A text with something in it besides white space is its leading white
    space, its trimmed form and its trailing white space, the trimmed form
    being bare. *)
Lemma trim_decompose s :
  Js.trim s <> [] ->
  Js.bare (Js.trim s) = true
  /\ exists r,
       forallb Js.isWhiteSpace r = true
       /\ s = Js.leadingWhitespace s ++ Js.trim s ++ r.
Proof.
  intros Hne. unfold Js.trim, Js.trimEnd in *.
  set (u := Js.trimStart s) in *.
  pose proof (leading_trimStart (rev u)) as Hu.
  set (w := Js.leadingWhitespace (rev u)) in *.
  set (v := Js.trimStart (rev u)) in *.
  assert (Hv : v <> []) by (intros E; apply Hne; now rewrite E).
  assert (Hsplit : u = rev v ++ rev w).
  { rewrite <- (rev_involutive u), Hu, rev_app_distr. reflexivity. }
  assert (Hw : forallb Js.isWhiteSpace (rev w) = true).
  { rewrite forallb_forall. intros x Hx. apply in_rev in Hx.
    pose proof (leadingWhitespace_all (rev u)) as Hall.
    rewrite forallb_forall in Hall. now apply Hall. }
  split; [|exists (rev w); split; [exact Hw|]].
  - unfold Js.bare. apply andb_true_iff. split.
    + assert (Hub : Js.starts_bare u = true).
      { apply trimStart_starts_bare. fold u. intros E. apply Hv.
        subst v. now rewrite E. }
      rewrite Hsplit in Hub. destruct (rev v) as [|c x] eqn:Erv.
      * exfalso. apply Hv. rewrite <- (rev_involutive v), Erv. reflexivity.
      * exact Hub.
    + rewrite rev_involutive. now apply trimStart_starts_bare.
  - rewrite <- Hsplit. apply leading_trimStart.
Qed.

Lemma trim_trailing s :
  Js.trim s <> [] ->
  s = Js.leadingWhitespace s ++ Js.trim s ++ Js.trailingWhitespace s.
Proof.
  intros Hne. destruct (trim_decompose s Hne) as (Hb & r & Hr & Hs).
  apply andb_true_iff in Hb. destruct Hb as [_ Hend].
  assert (Htr : Js.trailingWhitespace s = r).
  { rewrite Hs at 1. now apply trailingWhitespace_bare_app. }
  rewrite Htr. exact Hs.
Qed.


End Whitespace.

(* ================================================================== *)
(** * DomTranslator: translating and restoring a node *)

Section RoundTrip.
Import DomTranslator.

Lemma substitute_other recs : forall d n,
  ~ In n (map rec_node recs) -> fold_left substitute recs d n = d n.
Proof.
  induction recs as [|r recs IH]; intros d n Hn; [reflexivity|].
  cbn [fold_left]. rewrite IH.
  - apply replaceNodeText_other. intros ->. apply Hn. now left.
  - intros Hin. apply Hn. now right.
Qed.

Lemma restore_record_other d r n :
  n <> rec_node r -> restore_record d r n = d n.
Proof.
  intros Hne. unfold restore_record.
  destruct (Dom.parentNode (d (rec_node r))); [|reflexivity].
  now apply replaceNodeText_other.
Qed.

Lemma restore_other recs : forall d n,
  ~ In n (map rec_node recs) -> fold_left restore_record recs d n = d n.
Proof.
  induction recs as [|r recs IH]; intros d n Hn; [reflexivity|].
  cbn [fold_left]. rewrite IH.
  - apply restore_record_other. intros ->. apply Hn. now left.
  - intros Hin. apply Hn. now right.
Qed.

Lemma records_of_nodes ns : forall ts r,
  In r (records_of ns ts) -> In (rec_node r) (map node ns).
Proof.
  induction ns as [|nodeInfo ns IH]; intros ts r Hr; [contradiction|].
  destruct ts as [|[tr|] ts]; cbn [records_of] in Hr; [contradiction| |].
  - destruct (Js.eqb (original tr) (translated tr)).
    + right. eapply IH, Hr.
    + destruct Hr as [<-|Hr]; [now left | right; eapply IH, Hr].
  - right. eapply IH, Hr.
Qed.






(** The other ways the round trip is lost: an empty translation merges the
    white space of both ends, and a snapshot that is not the trimmed live
    text is what comes back. *)
Example roundtrip_lost_on_empty_translation :
  let w1 :=
    applyTranslations init (page (Js.lit " Hello "%string))
      [{| node := 0%nat; originalText := Js.lit "Hello"%string |}]
      [Some {| original := Js.lit "Hello"%string; translated := [] |}] in
  Dom.textContent (snd (restoreOriginal (fst w1) (snd w1)) 0%nat)
  = Js.lit "  Hello  "%string.
Proof. reflexivity. Qed.

Example roundtrip_lost_on_stale_snapshot :
  let w1 :=
    applyTranslations init (page (Js.lit "Hello again"%string))
      [{| node := 0%nat; originalText := Js.lit "Hello"%string |}]
      [Some {| original := Js.lit "Hello"%string;
               translated := Js.lit "Annyeong"%string |}] in
  Dom.textContent (snd (restoreOriginal (fst w1) (snd w1)) 0%nat)
  = Js.lit "Hello"%string.
Proof. reflexivity. Qed.

End RoundTrip.

(* ================================================================== *)
(** * Number division against the literals 0.7 and 0.3 *)

Section Division.

Lemma normalize_spec k n :
  0 < k <= n ->
  52 <= Float64.normalize k n
  /\ n * 2 ^ 52 <= k * 2 ^ Float64.normalize k n < n * 2 ^ 53.
Proof.
  intros [Hk Hkn]. unfold Float64.normalize.
  assert (Hn : 0 < n) by lia.
  pose proof (Z.log2_spec k Hk) as [Ha1 Ha2].
  pose proof (Z.log2_spec n Hn) as [Hb1 Hb2].
  pose proof (Z.log2_le_mono k n Hkn) as Hab.
  pose proof (Z.log2_nonneg k) as Ha0.
  set (a := Z.log2 k) in *. set (b := Z.log2 n) in *.
  rewrite Z.pow_succ_r in Ha2, Hb2 by lia.
  assert (HB : 2 ^ b = 2 ^ a * 2 ^ (b - a)).
  { rewrite <- Z.pow_add_r by lia. f_equal. lia. }
  assert (He0 : 2 ^ (52 + b - a) = 2 ^ 52 * 2 ^ (b - a)).
  { rewrite <- Z.pow_add_r by lia. f_equal. lia. }
  assert (He1 : 2 ^ (52 + b - a + 1) = 2 * (2 ^ 52 * 2 ^ (b - a))).
  { rewrite Z.pow_add_r, He0 by lia. lia. }
  assert (HP : 0 < 2 ^ (b - a)) by (apply Z.pow_pos_nonneg; lia).
  assert (HA : 0 < 2 ^ a) by (apply Z.pow_pos_nonneg; lia).
  assert (H53 : 2 ^ 53 = 2 * 2 ^ 52) by reflexivity.
  assert (H52 : 0 < 2 ^ 52) by reflexivity.
  set (P := 2 ^ (b - a)) in *. set (A := 2 ^ a) in *. set (T := 2 ^ 52) in *.
  destruct (k * 2 ^ (52 + b - a) <? n * T) eqn:E.
  - apply Z.ltb_lt in E. rewrite He1. rewrite He0 in E. rewrite H53.
    split; [lia|]. split; [|nia].
    assert (n * T < 2 * (A * P) * T) by nia.
    assert (A * P * T <= k * (T * P)) by nia.
    nia.
  - apply Z.ltb_ge in E. rewrite He0 in *. rewrite H53.
    split; [lia|]. split; [exact E|].
    assert (k * (T * P) < 2 * A * (T * P)) by nia.
    assert (2 * (A * P) * T <= 2 * n * T) by nia.
    nia.
Qed.

(** The quotient sits in its binade and is off by at most half a unit in
    the last place. *)
Lemma div_spec k n :
  0 < k <= n ->
  52 <= Float64.expo (Float64.div k n)
  /\ n * 2 ^ 52 <= k * 2 ^ Float64.expo (Float64.div k n) < n * 2 ^ 53
  /\ - n <= 2 * (Float64.mant (Float64.div k n) * n
                 - k * 2 ^ Float64.expo (Float64.div k n)) <= n.
Proof.
  intros Hkn. destruct (normalize_spec k n Hkn) as (He & Hlo & Hhi).
  unfold Float64.div. replace (k =? 0) with false by (symmetry; apply Z.eqb_neq; lia).
  cbn [Float64.expo Float64.mant].
  set (e := Float64.normalize k n) in *. set (x := k * 2 ^ e) in *.
  split; [exact He|]. split; [split; assumption|].
  assert (Hn : 0 < n) by lia.
  pose proof (Z.div_mod x n ltac:(lia)) as Hdm.
  pose proof (Z.mod_pos_bound x n Hn) as Hr.
  set (q := x / n) in *. set (r := x mod n) in *.
  destruct (2 * r <? n) eqn:E1; [apply Z.ltb_lt in E1; lia|].
  apply Z.ltb_ge in E1.
  destruct (n <? 2 * r) eqn:E2; [apply Z.ltb_lt in E2; lia|].
  apply Z.ltb_ge in E2.
  destruct (Z.even q); lia.
Qed.

Lemma pow2_between e lo : 0 <= lo -> 0 <= e ->
  2 ^ lo < 2 ^ e < 2 ^ (lo + 2) -> e = lo + 1.
Proof.
  intros Hlo He [H1 H2].
  apply Z.pow_lt_mono_r_iff in H1; [|lia|lia].
  apply Z.pow_lt_mono_r_iff in H2; [|lia|lia].
  lia.
Qed.

Lemma lit_0_7_value :
  Float64.lit_0_7 = {| Float64.mant := 6305039478318694; Float64.expo := 53 |}.
Proof. reflexivity. Qed.

Lemma lit_0_3_value :
  Float64.lit_0_3 = {| Float64.mant := 5404319552844595; Float64.expo := 54 |}.
Proof. reflexivity. Qed.

(** [k / n > 0.7] on Numbers says what it says on fractions. *)
Lemma div_gt_0_7 k n :
  0 <= k <= n -> 0 < n < 2 ^ 49 ->
  Float64.ltb Float64.lit_0_7 (Float64.div k n) = (7 * n <? 10 * k).
Proof.
  intros Hk Hn. rewrite lit_0_7_value. unfold Float64.ltb.
  cbn [Float64.mant Float64.expo].
  destruct (Z.eq_dec k 0) as [->|Hk0].
  { change (Float64.div 0 n) with Float64.zero.
    transitivity false; [reflexivity | symmetry; apply Z.ltb_ge; lia]. }
  destruct (div_spec k n ltac:(lia)) as (He & [Hlo Hhi] & [Herr1 Herr2]).
  set (m := Float64.mant (Float64.div k n)) in *.
  set (e := Float64.expo (Float64.div k n)) in *.
  assert (HE : 2 ^ 52 <= 2 ^ e) by (apply Z.pow_le_mono_r; lia).
  assert (Hc : 10 * 6305039478318694 = 7 * 2 ^ 53 - 4) by reflexivity.
  assert (H49 : 2 ^ 49 * 16 = 2 ^ 53) by reflexivity.
  assert (H52 : 2 ^ 52 * 2 = 2 ^ 53) by reflexivity.
  assert (H53 : 0 < 2 ^ 53) by reflexivity.
  destruct (Z.lt_trichotomy (7 * n) (10 * k)) as [Hlt|[Heq|Hgt]].
  - (* above *)
    rewrite (proj2 (Z.ltb_lt _ _) Hlt). apply Z.ltb_lt.
    set (c := 6305039478318694) in *. set (E := 2 ^ e) in *.
    set (T := 2 ^ 53) in *. clearbody c E T m.
    assert (H1 : (14 * n + 2) * E <= 20 * k * E) by nia.
    assert (H2 : 0 <= (2 * E - 10 * n) * T + 8 * n * E) by nia.
    assert (H3 : 20 * n * (c * E) < 20 * n * (m * T)) by nia.
    nia.
  - (* exactly 7/10 *)
    rewrite <- Heq, Z.ltb_irrefl. apply Z.ltb_ge.
    assert (He53 : e = 53).
    { apply (pow2_between e 52); [lia | lia |].
      change (2 ^ (52 + 2)) with (4 * 2 ^ 52).
      set (E := 2 ^ e) in *. set (T := 2 ^ 52) in *.
      assert (0 < T) by reflexivity. clearbody E T. nia. }
    rewrite He53 in *.
    set (c := 6305039478318694) in *. set (T := 2 ^ 53) in *.
    clearbody c T m.
    assert (m = c) by nia. subst m. lia.
  - (* below *)
    rewrite (proj2 (Z.ltb_ge _ _) (Z.lt_le_incl _ _ Hgt)). apply Z.ltb_ge.
    set (c := 6305039478318694) in *. set (E := 2 ^ e) in *.
    set (T := 2 ^ 53) in *. clearbody c E T m.
    assert (H1 : 20 * k * E <= (14 * n - 2) * E) by nia.
    assert (H2 : 8 * n * E <= (2 * E - 10 * n) * T) by nia.
    assert (H3 : 20 * n * (m * T) <= 20 * n * (c * E)) by nia.
    nia.
Qed.

(** [k / n < 0.3] on Numbers says what it says on fractions. *)
Lemma div_lt_0_3 k n :
  0 <= k <= n -> 0 < n < 2 ^ 49 ->
  Float64.ltb (Float64.div k n) Float64.lit_0_3 = (10 * k <? 3 * n).
Proof.
  intros Hk Hn. rewrite lit_0_3_value. unfold Float64.ltb.
  cbn [Float64.mant Float64.expo].
  destruct (Z.eq_dec k 0) as [->|Hk0].
  { change (Float64.div 0 n) with Float64.zero.
    transitivity true; [reflexivity | symmetry; apply Z.ltb_lt; lia]. }
  destruct (div_spec k n ltac:(lia)) as (He & [Hlo Hhi] & [Herr1 Herr2]).
  set (m := Float64.mant (Float64.div k n)) in *.
  set (e := Float64.expo (Float64.div k n)) in *.
  assert (HE : 2 ^ 52 <= 2 ^ e) by (apply Z.pow_le_mono_r; lia).
  assert (Hc : 10 * 5404319552844595 = 3 * 2 ^ 54 - 2) by reflexivity.
  assert (H49 : 2 ^ 49 * 32 = 2 ^ 54) by reflexivity.
  assert (H52 : 2 ^ 52 * 4 = 2 ^ 54) by reflexivity.
  assert (H53 : 2 ^ 53 * 2 = 2 ^ 54) by reflexivity.
  assert (H54 : 0 < 2 ^ 54) by reflexivity.
  destruct (Z.lt_trichotomy (10 * k) (3 * n)) as [Hlt|[Heq|Hgt]].
  - (* below *)
    rewrite (proj2 (Z.ltb_lt _ _) Hlt). apply Z.ltb_lt.
    set (c := 5404319552844595) in *. set (E := 2 ^ e) in *.
    set (T := 2 ^ 54) in *. clearbody c E T m.
    assert (H1 : 20 * k * E <= (6 * n - 2) * E) by nia.
    assert (H2 : 4 * n * E + 10 * n * T < 2 * E * T) by nia.
    assert (H3 : 20 * n * (m * T) < 20 * n * (c * E)) by nia.
    nia.
  - (* exactly 3/10 *)
    rewrite Heq, Z.ltb_irrefl. apply Z.ltb_ge.
    assert (He54 : e = 54).
    { apply (pow2_between e 53); [lia | lia |].
      change (2 ^ (53 + 2)) with (8 * 2 ^ 52). change (2 ^ 53) with (2 * 2 ^ 52).
      change (2 ^ 53) with (2 * 2 ^ 52) in Hhi.
      set (E := 2 ^ e) in *. set (T := 2 ^ 52) in *.
      assert (0 < T) by reflexivity. clearbody E T. nia. }
    rewrite He54 in *.
    set (c := 5404319552844595) in *. set (T := 2 ^ 54) in *.
    clearbody c T m.
    assert (m = c) by nia. subst m. lia.
  - (* above *)
    rewrite (proj2 (Z.ltb_ge _ _) (Z.lt_le_incl _ _ Hgt)). apply Z.ltb_ge.
    set (c := 5404319552844595) in *. set (E := 2 ^ e) in *.
    set (T := 2 ^ 54) in *. clearbody c E T m.
    assert (H1 : (6 * n + 2) * E <= 20 * k * E) by nia.
    assert (H2 : 0 <= (2 * E - 10 * n) * T + 4 * n * E) by nia.
    assert (H3 : 20 * n * (c * E) <= 20 * n * (m * T)) by nia.
    nia.
Qed.

End Division.

(* ================================================================== *)
(** * TextExtractor: the thresholds of language detection *)

Section Detection.
Import TextExtractor.

Lemma classes_disjoint c : isHangul c && isLatin c = false.
Proof.
  unfold isHangul, isLatin.
  destruct (44032 <=? c)%N eqn:E1; [|reflexivity].
  apply N.leb_le in E1.
  replace (c <=? 122)%N with false by (symmetry; apply N.leb_gt; lia).
  replace (c <=? 90)%N with false by (symmetry; apply N.leb_gt; lia).
  now rewrite !andb_false_r.
Qed.

(** Hangul and Latin letters are counted among the code units of the text,
    each at most once. *)
Lemma count_bounds text :
  0 <= count isHangul text
  /\ 0 <= count isLatin text
  /\ count isHangul text + count isLatin text <= Z.of_nat (length text).
Proof.
  unfold count. induction text as [|c text IH]; [simpl; lia|].
  pose proof (classes_disjoint c) as Hd. cbn [filter].
  destruct (isHangul c), (isLatin c); try discriminate; cbn [length]; lia.
Qed.

(** C9. [detectLanguage] takes the share of Hangul among the Hangul and
    Latin letters of the text and answers [ko] exactly when the share is
    above 7/10, [en] exactly when there are such letters and the share is
    below 3/10, and [mixed] in every other case; [isSourceLanguage] holds
    exactly when the answer is the source language or [mixed].  The shares
    are compared as fractions: with [total] letters of which [korean] are
    Hangul, [korean / total > 7/10] is [7 * total < 10 * korean].  The
    Number division of the code agrees with that for every text of fewer
    than 2^49 code units. *)
Theorem detectLanguage_thresholds (text sourceLang : Js.string)
  (Hlen : Z.of_nat (length text) < 2 ^ 49) :
  let korean := count isHangul text in
  let total := korean + count isLatin text in
  (detectLanguage text = ko <-> 7 * total < 10 * korean)
  /\ (detectLanguage text = en <-> 0 < total /\ 10 * korean < 3 * total)
  /\ (detectLanguage text = mixed <->
        total = 0 \/ (3 * total <= 10 * korean /\ 10 * korean <= 7 * total))
  /\ (isSourceLanguage text sourceLang = true <->
        code (detectLanguage text) = sourceLang \/ detectLanguage text = mixed).
Proof.
  intros korean total.
  destruct (count_bounds text) as (Hk & Hl & Hsum).
  fold korean in Hk, Hsum. fold total in Hsum.
  assert (Hdetect :
    detectLanguage text
    = if total =? 0 then mixed
      else if 7 * total <? 10 * korean then ko
      else if 10 * korean <? 3 * total then en
      else mixed).
  { unfold detectLanguage. fold korean. fold total.
    destruct (total =? 0) eqn:E0; [reflexivity|].
    apply Z.eqb_neq in E0.
    rewrite div_gt_0_7, div_lt_0_3 by (subst total; lia).
    reflexivity. }
  split; [|split; [|split]].
  - rewrite Hdetect. destruct (total =? 0) eqn:E0.
    + apply Z.eqb_eq in E0. split; [discriminate | lia].
    + destruct (7 * total <? 10 * korean) eqn:E1.
      * apply Z.ltb_lt in E1. tauto.
      * apply Z.ltb_ge in E1.
        destruct (10 * korean <? 3 * total); split; try discriminate; lia.
  - rewrite Hdetect. destruct (total =? 0) eqn:E0.
    + apply Z.eqb_eq in E0. split; [discriminate | lia].
    + apply Z.eqb_neq in E0. destruct (7 * total <? 10 * korean) eqn:E1.
      * apply Z.ltb_lt in E1. split; [discriminate | subst total; lia].
      * destruct (10 * korean <? 3 * total) eqn:E2.
        -- apply Z.ltb_lt in E2. split; [subst total; lia | reflexivity].
        -- apply Z.ltb_ge in E2. split; [discriminate | lia].
  - rewrite Hdetect. destruct (total =? 0) eqn:E0.
    + apply Z.eqb_eq in E0. tauto.
    + apply Z.eqb_neq in E0. destruct (7 * total <? 10 * korean) eqn:E1.
      * apply Z.ltb_lt in E1. split; [discriminate | lia].
      * apply Z.ltb_ge in E1. destruct (10 * korean <? 3 * total) eqn:E2.
        -- apply Z.ltb_lt in E2. split; [discriminate | lia].
        -- apply Z.ltb_ge in E2. split; [lia | reflexivity].
  - unfold isSourceLanguage.
    destruct (detectLanguage text); rewrite ?eqb_true_iff;
      split; try tauto; intros [H|H]; try assumption; try discriminate;
      reflexivity.
Qed.

(** Shares of 0.8, 0.1 and 0.5: eight Hangul syllables with two Latin
    letters, one with nine and five with five. *)
Lemma detectLanguage_thresholds_witness :
  detectLanguage (repeat 44032%N 8 ++ Js.lit "ab"%string) = ko
  /\ detectLanguage (repeat 44032%N 1 ++ Js.lit "abcdefghi"%string) = en
  /\ detectLanguage (repeat 44032%N 5 ++ Js.lit "abcde"%string) = mixed
  /\ isSourceLanguage (repeat 44032%N 5 ++ Js.lit "abcde"%string)
       (Js.lit "en"%string) = true.
Proof.
  split; [|split; [|split]].
  - apply (detectLanguage_thresholds
             (repeat 44032%N 8 ++ Js.lit "ab"%string) []);
      vm_compute; reflexivity.
  - apply (detectLanguage_thresholds
             (repeat 44032%N 1 ++ Js.lit "abcdefghi"%string) []);
      [vm_compute; reflexivity|].
    split; vm_compute; reflexivity.
  - apply (detectLanguage_thresholds
             (repeat 44032%N 5 ++ Js.lit "abcde"%string) []);
      [vm_compute; reflexivity|].
    right. split; vm_compute; discriminate.
  - apply (detectLanguage_thresholds
             (repeat 44032%N 5 ++ Js.lit "abcde"%string) (Js.lit "en"%string));
      [vm_compute; reflexivity|].
    right. reflexivity.
Defined.

End Detection.

(* ================================================================== *)
(** * Worked examples *)

Section Examples.

(** A batch of three texts against a cache that knows the first one: the
    two occurrences of [Hello] are hits, [Bye] is the one miss. *)
Example getMultiple_small :
  let c := TranslationCache.set TranslationCache.empty (Js.lit "Hello"%string)
             (Js.lit "Annyeong"%string) (Js.lit "en"%string)
             (Js.lit "ko"%string) 0 in
  fst (TranslationCache.getMultiple (fun _ => 10) c
         [Js.lit "Hello"%string; Js.lit "Bye"%string; Js.lit "Hello"%string]
         (Js.lit "en"%string) (Js.lit "ko"%string))
  = {| TranslationCache.cached :=
         [(0%nat, Js.lit "Annyeong"%string); (2%nat, Js.lit "Annyeong"%string)];
       TranslationCache.uncached :=
         [{| TranslationCache.index := 1;
             TranslationCache.text := Js.lit "Bye"%string |}] |}.
Proof. reflexivity. Qed.

(** The clock may move during a batch: the second look at [Hello] comes
    after the entry has expired, deletes it and reports a miss. *)
Example getMultiple_expires_midway :
  let c := TranslationCache.set TranslationCache.empty (Js.lit "Hello"%string)
             (Js.lit "Annyeong"%string) (Js.lit "en"%string)
             (Js.lit "ko"%string) 0 in
  TranslationCache.getMultiple
    (fun i => if (i =? 0)%nat then 10 else TranslationCache.ttl + 1) c
    [Js.lit "Hello"%string; Js.lit "Hello"%string]
    (Js.lit "en"%string) (Js.lit "ko"%string)
  = ({| TranslationCache.cached := [(0%nat, Js.lit "Annyeong"%string)];
        TranslationCache.uncached :=
          [{| TranslationCache.index := 1;
              TranslationCache.text := Js.lit "Hello"%string |}] |},
     TranslationCache.empty).
Proof. reflexivity. Qed.

(** Of two entries with the same smallest timestamp the one inserted first
    is evicted. *)
Example evictOldest_tie :
  TranslationCache.evictOldest
    [(Js.lit "a"%string,
      {| TranslationCache.translated := []; TranslationCache.timestamp := 7 |});
     (Js.lit "b"%string,
      {| TranslationCache.translated := []; TranslationCache.timestamp := 5 |});
     (Js.lit "c"%string,
      {| TranslationCache.translated := []; TranslationCache.timestamp := 5 |})]
  = [(Js.lit "a"%string,
      {| TranslationCache.translated := []; TranslationCache.timestamp := 7 |});
     (Js.lit "c"%string,
      {| TranslationCache.translated := []; TranslationCache.timestamp := 5 |})].
Proof. reflexivity. Qed.

(** An entry read exactly [ttl] after it was written is still a hit. *)
Example get_at_ttl :
  fst (TranslationCache.get
         (TranslationCache.set TranslationCache.empty (Js.lit "Hello"%string)
            (Js.lit "Annyeong"%string) (Js.lit "en"%string)
            (Js.lit "ko"%string) 1000)
         (Js.lit "Hello"%string) (Js.lit "en"%string) (Js.lit "ko"%string)
         (1000 + TranslationCache.ttl))
  = Some (Js.lit "Annyeong"%string).
Proof. reflexivity. Qed.

(** A text without Hangul or Latin letters is [mixed], and so counts as
    being in any source language. *)
Example detectLanguage_no_letters :
  TextExtractor.detectLanguage (Js.lit "12:30"%string) = TextExtractor.mixed
  /\ TextExtractor.isSourceLanguage (Js.lit "12:30"%string) (Js.lit "en"%string)
     = true.
Proof. split; reflexivity. Qed.

(** Shares of exactly 0.7 and 0.3 are [mixed]. *)
Example detectLanguage_on_the_thresholds :
  TextExtractor.detectLanguage (repeat 44032%N 7 ++ Js.lit "abc"%string)
  = TextExtractor.mixed
  /\ TextExtractor.detectLanguage (repeat 44032%N 3 ++ Js.lit "abcdefg"%string)
     = TextExtractor.mixed.
Proof. split; reflexivity. Qed.

(** Translating a node and restoring it while it is detached leaves the
    translation in place and still empties the log. *)
Example restore_skips_detached :
  let d : Dom.Document :=
    fun _ => {| Dom.textContent := Js.lit "Annyeong"%string;
                Dom.parentNode := false |} in
  let self :=
    {| DomTranslator.translations :=
         [{| DomTranslator.rec_node := 0%nat;
             DomTranslator.rec_original := Js.lit "Hello"%string;
             DomTranslator.rec_translated := Js.lit "Annyeong"%string |}];
       DomTranslator.isTranslated := true |} in
  let w := DomTranslator.restoreOriginal self d in
  Dom.textContent (snd w 0%nat) = Js.lit "Annyeong"%string
  /\ DomTranslator.getStatus (fst w) = (false, 0%nat).
Proof. split; reflexivity. Qed.

End Examples.

(* ================================================================== *)
(** * TranslationCache: capacity, keys and overwriting *)

Section CacheCapacity.
Import TranslationCache.

Lemma map_delete_size (c : t) k : Js.map_size (cache_delete c k) <= Js.map_size c.
Proof.
  unfold Js.map_size. induction c as [|[k' e] c IH]; simpl; [lia|].
  destruct (Js.string_eq_dec k k'); cbn [length]; lia.
Qed.

Lemma map_set_size_le (c : t) k e :
  Js.map_size (cache_set c k e) <= Js.map_size c + 1.
Proof.
  unfold Js.map_size. induction c as [|[k' e'] c IH]; simpl; [lia|].
  destruct (Js.string_eq_dec k k'); cbn [length]; lia.
Qed.

(** Setting a key the map holds changes neither the keys nor their order. *)
Lemma map_set_present_keys (c : t) k e :
  In k (Js.map_keys c) -> Js.map_keys (cache_set c k e) = Js.map_keys c.
Proof.
  induction c as [|[k' e'] c IH]; simpl; [contradiction|]. intros Hin.
  destruct (Js.string_eq_dec k k') as [->|Hne]; [reflexivity|].
  simpl. f_equal. apply IH. destruct Hin as [E|Hin]; [congruence | exact Hin].
Qed.

Lemma evictOldest_size (c : t) :
  cache_wf c -> c <> [] -> Js.map_size (evictOldest c) = Js.map_size c - 1.
Proof.
  intros Hwf Hne.
  destruct (evictOldest_spec c Hwf Hne) as (c1 & k & e & c2 & (Hc & _) & Hev).
  rewrite Hev, Hc. unfold Js.map_size. rewrite !length_app. cbn [length]. lia.
Qed.

Lemma get_size (c : t) text src tgt now :
  Js.map_size (snd (get c text src tgt now)) <= Js.map_size c.
Proof.
  unfold get. destruct (cache_get c (generateKey text src tgt)) as [e|]; [|simpl; lia].
  destruct (now - timestamp e >? ttl); [apply map_delete_size | simpl; lia].
Qed.

Lemma getMultiple_from_size clock src tgt texts : forall i (c : t) b,
  Js.map_size (snd (getMultiple_from clock src tgt texts i c b)) <= Js.map_size c.
Proof.
  induction texts as [|text rest IH]; intros i c b; [simpl; lia|].
  cbn [getMultiple_from].
  pose proof (get_size c text src tgt (clock i)) as Hg.
  destruct (get c text src tgt (clock i)) as [r c1]. cbn [snd] in Hg.
  etransitivity; [apply IH | exact Hg].
Qed.

Lemma set_size (c : t) text tr src tgt now :
  cache_wf c -> Js.map_size c <= maxSize ->
  Js.map_size (set c text tr src tgt now) <= maxSize.
Proof.
  intros Hwf Hsz. unfold set.
  destruct (Js.map_size c >=? maxSize) eqn:E.
  - apply Z.geb_le in E.
    assert (Hne : c <> []).
    { intros ->. unfold Js.map_size, maxSize in E. simpl in E. lia. }
    pose proof (evictOldest_size c Hwf Hne) as Hev.
    pose proof (map_set_size_le (evictOldest c) (generateKey text src tgt)
                  {| translated := tr; timestamp := now |}).
    lia.
  - rewrite Z.geb_leb, Z.leb_gt in E.
    pose proof (map_set_size_le c (generateKey text src tgt)
                  {| translated := tr; timestamp := now |}).
    lia.
Qed.

Lemma step_keeps_capacity (c : t) (k : CacheHistory.call) :
  cache_wf c /\ Js.map_size c <= maxSize ->
  cache_wf (CacheHistory.step c k) /\ Js.map_size (CacheHistory.step c k) <= maxSize.
Proof.
  intros [Hwf Hsz]. destruct k as [i|text src tgt now|clock texts src tgt|];
    cbn [CacheHistory.step].
  - split; [now apply cache_wf_set | now apply set_size].
  - split; [now apply cache_wf_get|].
    pose proof (get_size c text src tgt now). lia.
  - unfold getMultiple. split; [now apply cache_wf_getMultiple_from|].
    pose proof (getMultiple_from_size clock src tgt texts 0 c
                  {| cached := []; uncached := [] |}). lia.
  - split; [apply cache_wf_empty | unfold clear, Js.map_size, maxSize; simpl; lia].
Qed.

(** X1. Whatever is called on a new cache, in whatever order and at
    whatever clock readings, it never holds more than [maxSize] entries, its
    keys stay pairwise distinct and none of them is the empty string. *)
Theorem cache_never_exceeds_capacity (calls : list CacheHistory.call) :
  Js.map_size (CacheHistory.run calls) <= maxSize
  /\ NoDup (Js.map_keys (CacheHistory.run calls))
  /\ Forall (fun k => k <> []) (Js.map_keys (CacheHistory.run calls)).
Proof.
  assert (H : cache_wf (CacheHistory.run calls)
              /\ Js.map_size (CacheHistory.run calls) <= maxSize).
  { unfold CacheHistory.run.
    assert (H0 : cache_wf empty /\ Js.map_size empty <= maxSize).
    { split; [apply cache_wf_empty | unfold Js.map_size, maxSize; simpl; lia]. }
    revert H0. generalize empty as c.
    induction calls as [|k calls IH]; intros c Hc; [exact Hc|].
    cbn [fold_left]. apply IH. now apply step_keeps_capacity. }
  destruct H as [[Hnd Hk] Hsz]. split; [exact Hsz|]. split; [exact Hnd|].
  rewrite Forall_forall in *. intros k Hin Hempty.
  specialize (Hk k Hin). subst k. discriminate.
Qed.

(** X2. What [set] stores is what [get] returns for the same text and
    language pair, whatever the cache held before and whether or not an
    entry had to be evicted: a hit with the stored translation at every read
    time up to [ttl] after the write, a miss after that. *)
Theorem set_then_get (c : t) text tr src tgt T now :
  (now - T <= ttl ->
     get (set c text tr src tgt T) text src tgt now
     = (Some tr, set c text tr src tgt T))
  /\ (ttl < now - T ->
        fst (get (set c text tr src tgt T) text src tgt now) = None).
Proof.
  pose proof (set_stores c text tr src tgt T) as Hs. split; intros H.
  - now apply (get_hit _ _ _ _ _ _ Hs).
  - rewrite (get_expired _ _ _ _ _ _ Hs); [reflexivity | exact H].
Qed.

Lemma set_then_get_witness :
  get (set empty (Js.lit "Hello"%string) (Js.lit "Annyeong"%string)
         (Js.lit "en"%string) (Js.lit "ko"%string) 1000)
    (Js.lit "Hello"%string) (Js.lit "en"%string) (Js.lit "ko"%string) 2000
  = (Some (Js.lit "Annyeong"%string),
     set empty (Js.lit "Hello"%string) (Js.lit "Annyeong"%string)
       (Js.lit "en"%string) (Js.lit "ko"%string) 1000).
Proof.
  apply (proj1 (set_then_get empty _ _ _ _ 1000 2000)). discriminate.
Defined.

(** A text up to its first colon, when the part before has none. *)
Lemma split_at_colon (a a' r r' : Js.string) :
  ~ In colon a -> ~ In colon a' ->
  a ++ colon :: r = a' ++ colon :: r' -> a = a' /\ r = r'.
Proof.
  revert a'. induction a as [|x a IH]; intros a' Ha Ha' H.
  - destruct a' as [|y a']; simpl in H.
    + now inversion H.
    + inversion H; subst y. exfalso. apply Ha'. now left.
  - destruct a' as [|y a']; simpl in H.
    + inversion H; subst x. exfalso. apply Ha. now left.
    + inversion H; subst y.
      destruct (IH a') as [-> ->]; auto.
      * intros Hin. apply Ha. now right.
      * intros Hin. apply Ha'. now right.
Qed.

(** X3. Language codes without a colon make the cache key unambiguous: two
    requests have the same key only if they agree in source language, target
    language and text, so a translation is never handed out for another
    language pair or another text. *)
Theorem generateKey_injective text src tgt text' src' tgt'
  (Hsrc : ~ In colon src) (Htgt : ~ In colon tgt)
  (Hsrc' : ~ In colon src') (Htgt' : ~ In colon tgt')
  (Hkey : generateKey text src tgt = generateKey text' src' tgt') :
  src = src' /\ tgt = tgt' /\ text = text'.
Proof.
  unfold generateKey in Hkey. cbn [app] in Hkey.
  destruct (split_at_colon _ _ _ _ Hsrc Hsrc' Hkey) as [Hs Hrest].
  destruct (split_at_colon _ _ _ _ Htgt Htgt' Hrest) as [Ht Htext].
  auto.
Qed.

Lemma generateKey_injective_witness :
  Js.lit "en"%string = Js.lit "en"%string
  /\ Js.lit "ko"%string = Js.lit "ko"%string
  /\ Js.lit "a:b"%string = Js.lit "a:b"%string.
Proof.
  apply (generateKey_injective (Js.lit "a:b"%string) (Js.lit "en"%string)
           (Js.lit "ko"%string) (Js.lit "a:b"%string) (Js.lit "en"%string)
           (Js.lit "ko"%string)).
  - vm_compute. intuition discriminate.
  - vm_compute. intuition discriminate.
  - vm_compute. intuition discriminate.
  - vm_compute. intuition discriminate.
  - reflexivity.
Defined.

(** With a colon in a language code two different requests can share a
    key. *)
Example generateKey_collision :
  generateKey (Js.lit "c"%string) (Js.lit "a"%string) (Js.lit "b:b"%string)
  = generateKey (Js.lit "b:c"%string) (Js.lit "a"%string) (Js.lit "b"%string).
Proof. reflexivity. Qed.

(** X4. Writing a text that is already cached, below capacity, replaces
    its translation and timestamp in place: the keys and their order are
    the same, so is the number of entries, and every other entry is as it
    was. *)
Theorem set_overwrites_in_place (c : t) text tr src tgt T e
  (Hentry : cache_get c (generateKey text src tgt) = Some e)
  (Hroom : Js.map_size c < maxSize) :
  Js.map_keys (set c text tr src tgt T) = Js.map_keys c
  /\ Js.map_size (set c text tr src tgt T) = Js.map_size c
  /\ cache_get (set c text tr src tgt T) (generateKey text src tgt)
     = Some {| translated := tr; timestamp := T |}
  /\ (forall k, k <> generateKey text src tgt ->
        cache_get (set c text tr src tgt T) k = cache_get c k).
Proof.
  assert (Hkeys : Js.map_keys (set c text tr src tgt T) = Js.map_keys c).
  { unfold set. destruct (Js.map_size c >=? maxSize) eqn:E.
    - apply Z.geb_le in E. lia.
    - apply map_set_present_keys. eapply map_get_Some_key, Hentry. }
  split; [exact Hkeys|]. split; [|split].
  - unfold Js.map_size. unfold Js.map_keys in Hkeys.
    apply (f_equal (@length _)) in Hkeys. rewrite !length_map in Hkeys. lia.
  - apply set_stores.
  - intros k Hk. now apply set_below_capacity.
Qed.

Lemma set_overwrites_in_place_witness :
  let c := set empty (Js.lit "Hello"%string) (Js.lit "Annyeong"%string)
             (Js.lit "en"%string) (Js.lit "ko"%string) 1000 in
  Js.map_size
    (set c (Js.lit "Hello"%string) (Js.lit "Yeoboseyo"%string)
       (Js.lit "en"%string) (Js.lit "ko"%string) 5000)
  = Js.map_size c.
Proof.
  intros c.
  apply (set_overwrites_in_place c (Js.lit "Hello"%string)
           (Js.lit "Yeoboseyo"%string) (Js.lit "en"%string)
           (Js.lit "ko"%string) 5000
           {| translated := Js.lit "Annyeong"%string; timestamp := 1000 |}).
  - reflexivity.
  - reflexivity.
Defined.

End CacheCapacity.

(* ================================================================== *)
(** * TranslationCache: what a batch read reports and leaves behind *)

Section CacheBatchSound.
Import TranslationCache.

Lemma in_keys_app_mid {V} (c1 c2 : list (Js.string * V)) k v :
  In k (Js.map_keys (c1 ++ (k, v) :: c2)).
Proof. unfold Js.map_keys. rewrite map_app, in_app_iff. right. now left. Qed.

(** X5. Overwriting a cached text while the cache is full still evicts:
    the first oldest entry goes before the key is looked at.  If that entry
    belongs to another key, the cache is left with [maxSize - 1] entries and
    has lost it; if it is the entry of the key itself, the key moves to the
    end of the insertion order. *)
Theorem set_at_capacity_existing_key (c : t) text tr src tgt T e
  (Hwf : cache_wf c)
  (Hfull : Js.map_size c = maxSize)
  (Hentry : cache_get c (generateKey text src tgt) = Some e) :
  exists c1 k eo c2,
    oldest_split c c1 k eo c2
    /\ (k <> generateKey text src tgt ->
          Js.map_size (set c text tr src tgt T) = maxSize - 1
          /\ cache_get (set c text tr src tgt T) k = None)
    /\ (k = generateKey text src tgt ->
          set c text tr src tgt T
          = c1 ++ c2 ++ [(k, {| translated := tr; timestamp := T |})]).
Proof.
  assert (Hne : c <> []).
  { intros ->. unfold Js.map_size, maxSize in Hfull. simpl in Hfull. lia. }
  destruct (evictOldest_spec c Hwf Hne) as (c1 & k & eo & c2 & Hs & Hev).
  exists c1, k, eo, c2. split; [exact Hs|].
  destruct Hs as (Hc & _). destruct Hwf as [Hnd _].
  assert (Hset : set c text tr src tgt T
                 = cache_set (c1 ++ c2) (generateKey text src tgt)
                     {| translated := tr; timestamp := T |}).
  { unfold set. rewrite <- Hev.
    destruct (Js.map_size c >=? maxSize) eqn:E; [reflexivity|].
    rewrite Z.geb_leb, Z.leb_gt in E. lia. }
  assert (Hk : ~ In k (Js.map_keys (c1 ++ c2))).
  { rewrite Hc in Hnd. unfold Js.map_keys in *. rewrite map_app in *.
    cbn [map fst] in Hnd. now apply NoDup_remove_2 in Hnd. }
  assert (Hlen : Js.map_size (c1 ++ c2) = maxSize - 1).
  { rewrite <- Hfull, Hc. unfold Js.map_size. rewrite !length_app.
    cbn [length]. lia. }
  split.
  - intros Hother. rewrite Hset. split.
    + assert (Hin : In (generateKey text src tgt) (Js.map_keys (c1 ++ c2))).
      { apply map_get_Some_key in Hentry. rewrite Hc in Hentry.
        unfold Js.map_keys in *. rewrite map_app, in_app_iff in *.
        cbn [map fst In] in Hentry.
        destruct Hentry as [H|[H|H]]; [now left | congruence | now right]. }
      pose proof (map_set_present_keys (c1 ++ c2) _
                    {| translated := tr; timestamp := T |} Hin) as Hkeys.
      unfold Js.map_size in *. unfold Js.map_keys in Hkeys.
      apply (f_equal (@length _)) in Hkeys. rewrite !length_map in Hkeys. lia.
    + rewrite cache_get_set_other by exact Hother. now apply map_get_None.
  - intros ->. rewrite Hset, app_assoc. now apply map_set_fresh.
Qed.

(** The thousand numbered entries, the one of call 5 written again: the
    entry of call 0 is evicted and 999 entries are left. *)
Lemma set_at_capacity_existing_key_witness :
  exists c1 k eo c2,
    oldest_split (map entry_of (map numbered (seq 0 1000))) c1 k eo c2
    /\ (k <> key_of (numbered 5) ->
          Js.map_size
            (set (map entry_of (map numbered (seq 0 1000)))
               [5%N] [5%N] (Js.lit "en"%string) (Js.lit "ko"%string) 2000)
          = maxSize - 1
          /\ cache_get
               (set (map entry_of (map numbered (seq 0 1000)))
                  [5%N] [5%N] (Js.lit "en"%string) (Js.lit "ko"%string) 2000) k
             = None)
    /\ (k = key_of (numbered 5) ->
          set (map entry_of (map numbered (seq 0 1000)))
            [5%N] [5%N] (Js.lit "en"%string) (Js.lit "ko"%string) 2000
          = c1 ++ c2 ++ [(k, {| translated := [5%N]; timestamp := 2000 |})]).
Proof.
  apply (set_at_capacity_existing_key (map entry_of (map numbered (seq 0 1000)))
           [5%N] [5%N] (Js.lit "en"%string) (Js.lit "ko"%string) 2000
           (snd (entry_of (numbered 5)))).
  - apply numbered_cache_wf.
  - unfold Js.map_size. rewrite !length_map, length_seq. reflexivity.
  - apply map_get_NoDup_In; [apply numbered_cache_wf|].
    change (In (entry_of (numbered 5)) (map entry_of (map numbered (seq 0 1000)))).
    apply in_map, in_map, in_seq. lia.
Defined.

Variable clock : nat -> Z.
Variables sourceLang targetLang : Js.string.

Local Abbreviation key := (fun text => generateKey text sourceLang targetLang).
Local Abbreviation loop := (getMultiple_from clock sourceLang targetLang).

Lemma map_set_In (m : @Js.Map nat Js.string) k v kv :
  In kv (cached_set m k v) -> kv = (k, v) \/ In kv m.
Proof.
  induction m as [|[k' v'] m IH]; simpl.
  - intros [<-|[]]. now left.
  - destruct (Nat.eq_dec k k') as [->|Hne]; simpl.
    + intros [<-|H]; [now left | right; now right].
    + intros [<-|H]; [right; now left|].
      destruct (IH H) as [->|H']; [now left | right; now right].
Qed.

(** A hit is the translation of an entry that has not expired. *)
Lemma get_Some_inv (c : t) text now s :
  fst (get c text sourceLang targetLang now) = Some s ->
  exists e, cache_get c (key text) = Some e
            /\ translated e = s /\ now - timestamp e <= ttl.
Proof.
  unfold get. destruct (cache_get c (generateKey text sourceLang targetLang)) as [e|];
    [|discriminate].
  destruct (now - timestamp e >? ttl) eqn:E; [discriminate|].
  simpl. intros H. injection H as <-. exists e.
  rewrite Z.gtb_ltb, Z.ltb_ge in E. auto.
Qed.

(** A read leaves an unexpired entry where it is, whoever it belongs to. *)
Lemma get_keeps_fresh (c : t) text now k e :
  cache_get c k = Some e -> now - timestamp e <= ttl ->
  cache_get (snd (get c text sourceLang targetLang now)) k = Some e.
Proof.
  intros He Hage.
  destruct (Js.string_eq_dec k (generateKey text sourceLang targetLang)) as [->|Hne].
  - now rewrite (get_hit c text sourceLang targetLang e now He Hage).
  - now rewrite get_other_keys.
Qed.

Lemma getMultiple_from_sound (texts0 : list Js.string) (c0 : t)
  (texts : list Js.string) :
  forall (i : nat) (c : t) (b : Batch),
    (forall j text, nth_error texts j = Some text ->
                    nth_error texts0 (i + j) = Some text) ->
    (forall k e, cache_get c k = Some e -> cache_get c0 k = Some e) ->
    (forall j v, In (j, v) (cached b) ->
       exists text e,
         nth_error texts0 j = Some text
         /\ cache_get c0 (key text) = Some e
         /\ translated e = v /\ clock j - timestamp e <= ttl) ->
    forall j v, In (j, v) (cached (fst (loop texts i c b))) ->
      exists text e,
        nth_error texts0 j = Some text
        /\ cache_get c0 (key text) = Some e
        /\ translated e = v /\ clock j - timestamp e <= ttl.
Proof.
  induction texts as [|text rest IH]; intros i c b Hpos Hsub Hb; [exact Hb|].
  cbn [getMultiple_from].
  pose proof (get_Some_inv c text (clock i)) as Hinv.
  pose proof (fun k e => get_only_deletes c text sourceLang targetLang
                           (clock i) k e) as Hdel.
  destruct (get c text sourceLang targetLang (clock i)) as [r c1].
  cbn [fst snd] in Hinv, Hdel.
  apply IH.
  - intros j t Hj. replace (S i + j)%nat with (i + S j)%nat by lia.
    now apply Hpos.
  - intros k e Hk. apply Hsub. now apply Hdel.
  - destruct r as [s|]; [destruct (Js.truthy s)|]; cbn [cached]; try exact Hb.
    intros j v Hin. apply map_set_In in Hin. destruct Hin as [E|Hin]; [|now apply Hb].
    injection E as -> ->.
    destruct (Hinv s eq_refl) as (e & He & Htr & Hage).
    exists text, e. repeat split; auto.
    rewrite <- (Nat.add_0_r i). now apply Hpos.
Qed.

Lemma getMultiple_from_cache (texts : list Js.string) :
  forall (i : nat) (c : t) (b : Batch),
    (forall k e, cache_get (snd (loop texts i c b)) k = Some e ->
                 cache_get c k = Some e)
    /\ (forall k, (forall text, In text texts -> k <> key text) ->
                  cache_get (snd (loop texts i c b)) k = cache_get c k)
    /\ (forall k e, cache_get c k = Some e ->
                    (forall j, clock j - timestamp e <= ttl) ->
                    cache_get (snd (loop texts i c b)) k = Some e).
Proof.
  induction texts as [|text rest IH]; intros i c b.
  - simpl. auto.
  - cbn [getMultiple_from].
    pose proof (fun k e => get_only_deletes c text sourceLang targetLang
                             (clock i) k e) as Hdel.
    pose proof (fun k => get_other_keys c text sourceLang targetLang
                           (clock i) k) as Hother.
    pose proof (fun k e => get_keeps_fresh c text (clock i) k e) as Hfresh.
    destruct (get c text sourceLang targetLang (clock i)) as [r c1].
    cbn [snd] in Hdel, Hother, Hfresh.
    match goal with |- context [loop rest (S i) c1 ?b1] =>
      destruct (IH (S i) c1 b1) as (H1 & H2 & H3) end.
    split; [|split].
    + intros k e Hk. apply Hdel. now apply H1.
    + intros k Hk. rewrite H2.
      * apply Hother. apply Hk. now left.
      * intros t Ht. apply Hk. now right.
    + intros k e Hk Hage. apply H3; [|exact Hage]. now apply Hfresh.
Qed.

(** X6. Every hit [getMultiple] reports is genuine: the value at index [i]
    of [cached] is the translation stored in the cache, as it was before
    the call, under the key of [texts[i]], and that entry had not expired
    when it was read. *)
Theorem getMultiple_hits_are_cached (c : t) (texts : list Js.string) :
  forall i v,
    In (i, v) (cached (fst (getMultiple clock c texts sourceLang targetLang))) ->
    exists text e,
      nth_error texts i = Some text
      /\ cache_get c (key text) = Some e
      /\ translated e = v
      /\ clock i - timestamp e <= ttl.
Proof.
  unfold getMultiple.
  apply (getMultiple_from_sound texts c texts 0 c).
  - intros j text Hj. exact Hj.
  - auto.
  - intros j v [].
Qed.

(** X7. [getMultiple] only ever takes entries away: what the cache holds
    afterwards it held before; keys that belong to none of the texts are
    untouched; and an entry that is unexpired at every clock reading of the
    call is still there. *)
Theorem getMultiple_only_expires (c : t) (texts : list Js.string) :
  let c' := snd (getMultiple clock c texts sourceLang targetLang) in
  (forall k e, cache_get c' k = Some e -> cache_get c k = Some e)
  /\ (forall k, (forall text, In text texts -> k <> key text) ->
                cache_get c' k = cache_get c k)
  /\ (forall k e, cache_get c k = Some e ->
                  (forall j, clock j - timestamp e <= ttl) ->
                  cache_get c' k = Some e).
Proof. apply getMultiple_from_cache. Qed.

Lemma getMultiple_from_cold (texts : list Js.string) :
  forall (i : nat) (c : t) (b : Batch),
    (forall text, In text texts -> cache_get c (key text) = None) ->
    loop texts i c b
    = ({| cached := cached b;
          uncached := uncached b ++ CacheHistory.all_uncached i texts |}, c).
Proof.
  induction texts as [|text rest IH]; intros i c b Hcold.
  - simpl. rewrite app_nil_r. now destruct b.
  - cbn [getMultiple_from CacheHistory.all_uncached].
    rewrite (get_absent c text sourceLang targetLang (clock i))
      by (apply Hcold; now left).
    rewrite IH by (intros t Ht; apply Hcold; now right).
    cbn [cached uncached]. now rewrite <- app_assoc.
Qed.

(** X8. On a cache that knows none of the texts, an empty one for
    instance, [getMultiple] reports no hit, lists every text with its
    position in input order, and leaves the cache as it is. *)
Theorem getMultiple_cold_cache (c : t) (texts : list Js.string)
  (Hcold : forall text, In text texts -> cache_get c (key text) = None) :
  getMultiple clock c texts sourceLang targetLang
  = ({| cached := []; uncached := CacheHistory.all_uncached 0 texts |}, c).
Proof.
  unfold getMultiple. now rewrite getMultiple_from_cold.
Qed.

End CacheBatchSound.

Lemma getMultiple_cold_cache_witness :
  TranslationCache.getMultiple (fun _ => 0) TranslationCache.empty
    [Js.lit "Hello"%string; Js.lit "Bye"%string]
    (Js.lit "en"%string) (Js.lit "ko"%string)
  = ({| TranslationCache.cached := [];
        TranslationCache.uncached :=
          [{| TranslationCache.index := 0;
              TranslationCache.text := Js.lit "Hello"%string |};
           {| TranslationCache.index := 1;
              TranslationCache.text := Js.lit "Bye"%string |}] |},
     TranslationCache.empty).
Proof.
  apply (getMultiple_cold_cache (fun _ => 0) (Js.lit "en"%string)
           (Js.lit "ko"%string) TranslationCache.empty
           [Js.lit "Hello"%string; Js.lit "Bye"%string]).
  intros text _. reflexivity.
Defined.

Lemma getMultiple_hits_are_cached_witness :
  let c := TranslationCache.set TranslationCache.empty (Js.lit "Hello"%string)
             (Js.lit "Annyeong"%string) (Js.lit "en"%string)
             (Js.lit "ko"%string) 0 in
  exists text e,
    nth_error [Js.lit "Bye"%string; Js.lit "Hello"%string] 1 = Some text
    /\ TranslationCache.cache_get c
         (TranslationCache.generateKey text (Js.lit "en"%string)
            (Js.lit "ko"%string)) = Some e
    /\ TranslationCache.translated e = Js.lit "Annyeong"%string
    /\ 10 - TranslationCache.timestamp e <= TranslationCache.ttl.
Proof.
  intros c.
  apply (getMultiple_hits_are_cached (fun _ => 10) (Js.lit "en"%string)
           (Js.lit "ko"%string) c
           [Js.lit "Bye"%string; Js.lit "Hello"%string] 1%nat
           (Js.lit "Annyeong"%string)).
  left. reflexivity.
Defined.

(* ================================================================== *)
(** * DomTranslator: what a call touches *)

Section TranslatorFrame.
Import DomTranslator.

Lemma substitute_parentNode recs : forall d n,
  Dom.parentNode (fold_left substitute recs d n) = Dom.parentNode (d n).
Proof.
  induction recs as [|r recs IH]; intros d n; [reflexivity|].
  cbn [fold_left]. rewrite IH. apply replaceNodeText_parentNode.
Qed.

Lemma restore_record_parentNode d r n :
  Dom.parentNode (restore_record d r n) = Dom.parentNode (d n).
Proof.
  unfold restore_record. destruct (Dom.parentNode (d (rec_node r)));
    [apply replaceNodeText_parentNode | reflexivity].
Qed.

Lemma restore_parentNode recs : forall d n,
  Dom.parentNode (fold_left restore_record recs d n) = Dom.parentNode (d n).
Proof.
  induction recs as [|r recs IH]; intros d n; [reflexivity|].
  cbn [fold_left]. rewrite IH. apply restore_record_parentNode.
Qed.

Lemma records_of_length ns : forall ts,
  (length (records_of ns ts) <= length ns)%nat.
Proof.
  induction ns as [|nodeInfo ns IH]; intros ts; [simpl; lia|].
  destruct ts as [|[tr|] ts]; cbn [records_of length]; [lia| |].
  - destruct (Js.eqb (original tr) (translated tr)); cbn [length];
      specialize (IH ts); lia.
  - specialize (IH ts). lia.
Qed.

(** X9. [applyTranslations] writes to no text node outside its batch,
    never changes whether a node is attached, and only appends to the undo
    log, at most one record per node of the batch. *)
Theorem applyTranslations_frame (self : t) (d : Dom.Document)
  (textNodes : list TextNodeInfo) (translatedTexts : list (option TranslatedText)) :
  let w := applyTranslations self d textNodes translatedTexts in
  (forall n, ~ In n (map node textNodes) -> snd w n = d n)
  /\ (forall n, Dom.parentNode (snd w n) = Dom.parentNode (d n))
  /\ (exists recs,
        translations (fst w) = translations self ++ recs
        /\ (length recs <= length textNodes)%nat
        /\ (forall r, In r recs -> In (rec_node r) (map node textNodes))).
Proof.
  intros w. subst w. unfold applyTranslations.
  destruct (negb (length textNodes =? length translatedTexts)%nat).
  - cbn [fst snd]. split; [auto|]. split; [auto|].
    exists []. rewrite app_nil_r. repeat split; [simpl; lia | intros r []].
  - rewrite applyTranslations_loop_spec. cbn [fst snd translations].
    split; [|split].
    + intros n Hn. apply substitute_other. intros Hin. apply Hn.
      apply in_map_iff in Hin. destruct Hin as (r & <- & Hr).
      eapply records_of_nodes, Hr.
    + intros n. apply substitute_parentNode.
    + exists (records_of textNodes translatedTexts).
      split; [reflexivity|]. split; [apply records_of_length|].
      intros r Hr. eapply records_of_nodes, Hr.
Qed.

(** X10. [restoreOriginal] writes to no text node that has no record in the
    undo log and never changes whether a node is attached. *)
Theorem restoreOriginal_frame (self : t) (d : Dom.Document) :
  let w := restoreOriginal self d in
  (forall n, ~ In n (map rec_node (translations self)) -> snd w n = d n)
  /\ (forall n, Dom.parentNode (snd w n) = Dom.parentNode (d n)).
Proof.
  intros w. subst w. unfold restoreOriginal.
  destruct (negb (isTranslated self)); cbn [snd]; [auto|].
  split; [intros n Hn; now apply restore_other | apply restore_parentNode].
Qed.

Lemma trimStart_app l s :
  forallb Js.isWhiteSpace l = true -> Js.starts_bare s = true ->
  Js.trimStart (l ++ s) = s.
Proof.
  intros Hl Hs. induction l as [|c l IH]; simpl in *.
  - destruct s as [|c s]; [discriminate|]. simpl in *.
    now destruct (Js.isWhiteSpace c).
  - apply andb_true_iff in Hl. destruct Hl as [Hc Hl]. rewrite Hc. auto.
Qed.

Lemma forallb_rev {A} (p : A -> bool) l :
  forallb p l = true -> forallb p (rev l) = true.
Proof.
  rewrite !forallb_forall. intros H x Hx. apply H. now apply in_rev.
Qed.

(** White space around a bare text trims away to that text. *)
Lemma trim_sandwich l s r :
  forallb Js.isWhiteSpace l = true -> forallb Js.isWhiteSpace r = true ->
  Js.bare s = true -> Js.trim (l ++ s ++ r) = s.
Proof.
  intros Hl Hr Hb. apply andb_true_iff in Hb. destruct Hb as [Hstart Hend].
  unfold Js.trim, Js.trimEnd.
  rewrite trimStart_app; [|exact Hl|].
  - rewrite rev_app_distr, trimStart_app;
      [apply rev_involutive | now apply forallb_rev | exact Hend].
  - destruct s as [|c s]; [discriminate | exact Hstart].
Qed.

Lemma trailingWhitespace_all s :
  forallb Js.isWhiteSpace (Js.trailingWhitespace s) = true.
Proof.
  induction s as [|c s IH]; [reflexivity|].
  cbn [Js.trailingWhitespace].
  destruct (forallb Js.isWhiteSpace (c :: s)) eqn:E; [exact E | exact IH].
Qed.

(** X11. [replaceNodeText] keeps the white space around the text.  When
    the new text is not empty and neither starts nor ends with white space,
    the node afterwards has the leading and the trailing white space it had
    before, and trimmed it reads the new text. *)
Theorem replaceNodeText_keeps_whitespace (d : Dom.Document) (node : Dom.Node)
  (newText : Js.string) (Hbare : Js.bare newText = true) :
  let before := Dom.textContent (d node) in
  let after := Dom.textContent (replaceNodeText d node newText node) in
  Js.leadingWhitespace after = Js.leadingWhitespace before
  /\ Js.trailingWhitespace after = Js.trailingWhitespace before
  /\ Js.trim after = newText.
Proof.
  intros before after. subst after. rewrite replaceNodeText_same. fold before.
  pose proof (leadingWhitespace_all before) as Hl.
  pose proof (trailingWhitespace_all before) as Hr.
  pose proof Hbare as Hb. apply andb_true_iff in Hb. destruct Hb as [Hstart Hend].
  split; [|split].
  - apply leadingWhitespace_app; [exact Hl|].
    destruct newText as [|c s]; [discriminate | exact Hstart].
  - now apply trailingWhitespace_bare_app.
  - now apply trim_sandwich.
Qed.

Lemma replaceNodeText_keeps_whitespace_witness :
  Js.trim
    (Dom.textContent
       (replaceNodeText (page (Js.lit "  Hello "%string)) 0%nat
          (Js.lit "Annyeong"%string) 0%nat))
  = Js.lit "Annyeong"%string.
Proof.
  apply (replaceNodeText_keeps_whitespace (page (Js.lit "  Hello "%string))
           0%nat (Js.lit "Annyeong"%string)).
  reflexivity.
Defined.

(** X12. [restoreOriginal] replays the log front to back, so for a node
    with several records the last one decides: an attached node whose last
    record holds a text that is not empty and has no white space at either
    end reads, trimmed, that text after the call, whatever its earlier
    records hold. *)
Theorem restoreOriginal_last_record_wins (self : t) (d : Dom.Document)
  (l1 l2 : list TranslationRecord) (r : TranslationRecord)
  (Hflag : isTranslated self = true)
  (Hlog : translations self = l1 ++ r :: l2)
  (Hlast : ~ In (rec_node r) (map rec_node l2))
  (Hattached : Dom.parentNode (d (rec_node r)) = true)
  (Hbare : Js.bare (rec_original r) = true) :
  Js.trim (Dom.textContent (snd (restoreOriginal self d) (rec_node r)))
  = rec_original r.
Proof.
  unfold restoreOriginal. rewrite Hflag, Hlog. cbn [negb snd].
  rewrite fold_left_app. cbn [fold_left].
  rewrite (restore_other l2 _ _ Hlast).
  set (d1 := fold_left restore_record l1 d).
  unfold restore_record.
  replace (Dom.parentNode (d1 (rec_node r))) with true
    by (unfold d1; now rewrite restore_parentNode).
  rewrite replaceNodeText_same.
  apply trim_sandwich;
    [apply leadingWhitespace_all | apply trailingWhitespace_all | exact Hbare].
Qed.

(** A node translated twice, the second time from a fresh snapshot of the
    first translation: restoring brings back the first translation, not the
    original. *)
Lemma restoreOriginal_last_record_wins_witness :
  let self :=
    {| translations :=
         [{| rec_node := 0%nat; rec_original := Js.lit "Hello"%string;
             rec_translated := Js.lit "Annyeong"%string |};
          {| rec_node := 0%nat; rec_original := Js.lit "Annyeong"%string;
             rec_translated := Js.lit "Bonjour"%string |}];
       isTranslated := true |} in
  Js.trim
    (Dom.textContent
       (snd (restoreOriginal self (page (Js.lit " Bonjour "%string))) 0%nat))
  = Js.lit "Annyeong"%string.
Proof.
  intros self.
  apply (restoreOriginal_last_record_wins self (page (Js.lit " Bonjour "%string))
           [{| rec_node := 0%nat; rec_original := Js.lit "Hello"%string;
               rec_translated := Js.lit "Annyeong"%string |}]
           []
           {| rec_node := 0%nat; rec_original := Js.lit "Annyeong"%string;
              rec_translated := Js.lit "Bonjour"%string |}).
  - reflexivity.
  - reflexivity.
  - intros [].
  - reflexivity.
  - reflexivity.
Defined.

End TranslatorFrame.

(* ================================================================== *)
(** * TextExtractor: letter density *)

Section LetterDensity.
Import TextExtractor.

Lemma count_letters text :
  count TextFilter.isLetter text = count isHangul text + count isLatin text.
Proof.
  unfold count, TextFilter.isLetter. induction text as [|c text IH]; [reflexivity|].
  pose proof (classes_disjoint c) as Hd. cbn [filter].
  destruct (isHangul c), (isLatin c); try discriminate; cbn [orb length]; lia.
Qed.

(** The three exits of [detectLanguage], on fractions. *)
Lemma detectLanguage_cases (text : Js.string) :
  Z.of_nat (length text) < 2 ^ 49 ->
  detectLanguage text
  = if count isHangul text + count isLatin text =? 0 then mixed
    else if 7 * (count isHangul text + count isLatin text)
            <? 10 * count isHangul text then ko
    else if 10 * count isHangul text
            <? 3 * (count isHangul text + count isLatin text) then en
    else mixed.
Proof.
  intros Hlen. destruct (count_bounds text) as (Hk & Hl & Hsum).
  unfold detectLanguage.
  destruct (count isHangul text + count isLatin text =? 0) eqn:E0; [reflexivity|].
  apply Z.eqb_neq in E0.
  rewrite div_gt_0_7, div_lt_0_3 by lia. reflexivity.
Qed.

Lemma detectLanguage_mixed_iff (text : Js.string) :
  Z.of_nat (length text) < 2 ^ 49 ->
  detectLanguage text = mixed
  <-> count isHangul text + count isLatin text = 0
      \/ (3 * (count isHangul text + count isLatin text) <= 10 * count isHangul text
          /\ 10 * count isHangul text
             <= 7 * (count isHangul text + count isLatin text)).
Proof.
  intros Hlen. rewrite (detectLanguage_cases text Hlen).
  destruct (count isHangul text + count isLatin text =? 0) eqn:E0.
  - apply Z.eqb_eq in E0. tauto.
  - apply Z.eqb_neq in E0.
    destruct (7 * (count isHangul text + count isLatin text)
              <? 10 * count isHangul text) eqn:E1.
    + apply Z.ltb_lt in E1. split; [discriminate | lia].
    + apply Z.ltb_ge in E1.
      destruct (10 * count isHangul text
                <? 3 * (count isHangul text + count isLatin text)) eqn:E2.
      * apply Z.ltb_lt in E2. split; [discriminate | lia].
      * apply Z.ltb_ge in E2. split; [lia | reflexivity].
Qed.

(** X13. [isNonTranslatable] holds exactly when fewer than three in ten
    code units of the text are Latin or Hangul letters; the empty string is
    not non-translatable.  The Number division of the code agrees with the
    fraction for every text of fewer than 2^49 code units. *)
Theorem isNonTranslatable_threshold (text : Js.string)
  (Hlen : Z.of_nat (length text) < 2 ^ 49) :
  TextFilter.isNonTranslatable text = true
  <-> 10 * (count isHangul text + count isLatin text) < 3 * Z.of_nat (length text).
Proof.
  destruct (count_bounds text) as (Hk & Hl & Hsum).
  unfold TextFilter.isNonTranslatable. rewrite count_letters.
  destruct (Z.of_nat (length text) =? 0) eqn:E0.
  - apply Z.eqb_eq in E0. split; [discriminate | lia].
  - apply Z.eqb_neq in E0. rewrite div_lt_0_3 by lia. apply Z.ltb_lt.
Qed.

Lemma isNonTranslatable_threshold_witness :
  TextFilter.isNonTranslatable (Js.lit "12:30 pm"%string) = true.
Proof.
  apply (isNonTranslatable_threshold (Js.lit "12:30 pm"%string));
    vm_compute; reflexivity.
Defined.

(** X14. For a text that is not empty and passes the density filter,
    [detectLanguage] never takes its no-letters exit: the text holds at
    least one letter, and [mixed] means that it holds both Hangul and Latin
    letters, each making up at least three in ten of the letters. *)
Theorem filtered_text_mixed_has_both (text : Js.string)
  (Hlen : Z.of_nat (length text) < 2 ^ 49)
  (Hsome : text <> [])
  (Hdense : TextFilter.isNonTranslatable text = false) :
  0 < count isHangul text + count isLatin text
  /\ (detectLanguage text = mixed ->
        0 < count isHangul text /\ 0 < count isLatin text
        /\ 3 * (count isHangul text + count isLatin text) <= 10 * count isHangul text
        /\ 3 * (count isHangul text + count isLatin text) <= 10 * count isLatin text).
Proof.
  destruct (count_bounds text) as (Hk & Hl & Hsum).
  assert (Hpos : 0 < Z.of_nat (length text)).
  { destruct text; [congruence | cbn [length]; lia]. }
  assert (Hd : ~ 10 * (count isHangul text + count isLatin text)
                 < 3 * Z.of_nat (length text)).
  { intros H. unfold TextFilter.isNonTranslatable in Hdense.
    rewrite count_letters in Hdense.
    replace (Z.of_nat (length text) =? 0) with false in Hdense
      by (symmetry; apply Z.eqb_neq; lia).
    rewrite div_lt_0_3 in Hdense by lia.
    apply Z.ltb_ge in Hdense. lia. }
  split; [lia|]. intros Hm.
  apply (detectLanguage_mixed_iff text Hlen) in Hm. lia.
Qed.

Lemma filtered_text_mixed_has_both_witness :
  0 < count isHangul (repeat 44032%N 5 ++ Js.lit "abcde"%string)
      + count isLatin (repeat 44032%N 5 ++ Js.lit "abcde"%string).
Proof.
  refine (proj1 (filtered_text_mixed_has_both
                   (repeat 44032%N 5 ++ Js.lit "abcde"%string) _ _ _)).
  - vm_compute. reflexivity.
  - discriminate.
  - reflexivity.
Defined.

End LetterDensity.

(* ================================================================== *)
(** * Cutting an array into requests: what the loop produces *)

Section SlicesFacts.
Context {A : Type}.
Import Batching.
Local Open Scope nat_scope.

Lemma slice_step (a : list A) i size :
  slice a i (i + size) = firstn size (skipn i a).
Proof. unfold slice. f_equal. lia. Qed.

Lemma slices_from_spec (size : nat) (a : list A) :
  0 < size ->
  forall fuel i out,
    length a - i <= fuel ->
    exists bs,
      slices_from fuel size a i out = Some (out ++ bs)
      /\ concat bs = skipn i a
      /\ Forall (fun b => 1 <= length b <= size) bs
      /\ (forall b, In b (removelast bs) -> length b = size)
      /\ length (skipn i a) <= length bs * size < length (skipn i a) + size.
Proof.
  intros Hsize. induction fuel as [|fuel IH]; intros i out Hfuel.
  - exists []. cbn [slices_from].
    replace (i <? length a) with false by (symmetry; apply Nat.ltb_ge; lia).
    rewrite app_nil_r, skipn_all2 by lia. simpl.
    split; [reflexivity|]. split; [reflexivity|]. split; [constructor|].
    split; [intros b []|]. lia.
  - cbn [slices_from]. destruct (i <? length a) eqn:E.
    + apply Nat.ltb_lt in E. rewrite slice_step.
      destruct (IH (i + size) (out ++ [firstn size (skipn i a)]))
        as (bs & Hr & Hc & Hall & Hfull & Hcount); [lia|].
      exists (firstn size (skipn i a) :: bs).
      assert (Hb : length (firstn size (skipn i a)) = Nat.min size (length a - i)).
      { now rewrite length_firstn, length_skipn. }
      assert (Hrest : skipn (i + size) a = skipn size (skipn i a)).
      { rewrite skipn_skipn. f_equal. lia. }
      split; [|split; [|split; [|split]]].
      * rewrite Hr, <- app_assoc. reflexivity.
      * cbn [concat]. rewrite Hc, Hrest. apply firstn_skipn.
      * constructor; [lia | exact Hall].
      * intros b Hin. destruct bs as [|b' bs']; [destruct Hin|].
        cbn [removelast] in Hin. destruct Hin as [<-|Hin]; [|now apply Hfull].
        rewrite length_skipn in Hcount. cbn [length] in Hcount.
        rewrite Nat.mul_succ_l in Hcount. lia.
      * rewrite length_skipn in *. cbn [length]. rewrite Nat.mul_succ_l.
        clear - Hcount E Hsize.
        destruct (Nat.le_gt_cases (i + size) (length a)) as [Hle|Hgt]; [lia|].
        assert (Hz : length bs = 0) by nia. rewrite Hz in *. lia.
    + apply Nat.ltb_ge in E. exists [].
      rewrite app_nil_r, skipn_all2 by lia. simpl.
      split; [reflexivity|]. split; [reflexivity|]. split; [constructor|].
    split; [intros b []|]. lia.
Qed.

(** X15. With a positive request size the loop ends within [a.length]
    turns, and its slices are the array cut in order: joined they give the
    array back, none is empty or longer than the size, all but the last have
    exactly the size, and there are as many as the length divided by the
    size, rounded up. *)
Theorem slices_partition (size fuel : nat) (a : list A)
  (Hsize : 0 < size) (Hfuel : length a <= fuel) :
  exists bs,
    slices fuel size a = Some bs
    /\ concat bs = a
    /\ Forall (fun b => 1 <= length b <= size) bs
    /\ (forall b, In b (removelast bs) -> length b = size)
    /\ length a <= length bs * size < length a + size.
Proof.
  destruct (slices_from_spec size a Hsize fuel 0 []) as (bs & H); [lia|].
  exists bs. exact H.
Qed.

(** X16. With a request size of zero the loop never ends on a non-empty
    array: the index does not advance, whatever the number of turns. *)
Theorem slices_zero_size_never_ends (fuel : nat) (a : list A)
  (Hsome : a <> []) :
  slices fuel 0 a = None.
Proof.
  unfold slices. generalize (@nil (list A)) as out.
  induction fuel as [|fuel IH]; intros out; cbn [slices_from];
    destruct a as [|x a']; try congruence; cbn [length Nat.ltb Nat.leb].
  - reflexivity.
  - apply IH.
Qed.

End SlicesFacts.

Lemma slices_partition_witness :
  exists bs,
    Batching.slices 5 2 [1; 2; 3; 4; 5]%nat = Some bs
    /\ concat bs = [1; 2; 3; 4; 5]%nat
    /\ Forall (fun b => (1 <= length b <= 2)%nat) bs
    /\ (forall b, In b (removelast bs) -> length b = 2%nat)
    /\ (length [1; 2; 3; 4; 5]%nat <= length bs * 2
        < length [1; 2; 3; 4; 5]%nat + 2)%nat.
Proof.
  apply (slices_partition 2 5 [1; 2; 3; 4; 5]%nat); simpl; lia.
Defined.

Lemma slices_zero_size_never_ends_witness :
  Batching.slices 1000 0 [1; 2; 3]%nat = None.
Proof.
  apply (slices_zero_size_never_ends 1000 [1; 2; 3]%nat). discriminate.
Defined.

(* ================================================================== *)
(** * ApiClient: requests of bounded size *)

Section ApiClientFacts.
Import ApiClient.
Local Open Scope nat_scope.

Variable MAX : nat.
Variable backend : nat -> list Js.string -> option (list DomTranslator.TranslatedText).

Lemma slices_from_out {A} (size : nat) (a : list A) :
  forall fuel i out,
    Batching.slices_from fuel size a i out
    = option_map (app out) (Batching.slices_from fuel size a i []).
Proof.
  induction fuel as [|fuel IH]; intros i out; cbn [Batching.slices_from].
  - destruct (i <? length a); simpl; [reflexivity | now rewrite app_nil_r].
  - destruct (i <? length a); simpl; [|now rewrite app_nil_r].
    set (b := Batching.slice a i (i + size)).
    rewrite (IH (i + size) (out ++ [b])), (IH (i + size) [b]).
    destruct (Batching.slices_from fuel size a (i + size) []); simpl;
      [now rewrite <- app_assoc | reflexivity].
Qed.

Lemma slices_from_more_fuel {A} (size : nat) (a : list A) :
  forall fuel fuel' i out bs,
    fuel <= fuel' ->
    Batching.slices_from fuel size a i out = Some bs ->
    Batching.slices_from fuel' size a i out = Some bs.
Proof.
  induction fuel as [|fuel IH]; intros fuel' i out bs Hle H;
    cbn [Batching.slices_from] in H.
  - destruct fuel'; cbn [Batching.slices_from];
      destruct (i <? length a); congruence.
  - destruct fuel' as [|fuel']; [lia|]. cbn [Batching.slices_from].
    destruct (i <? length a); [|exact H].
    apply (IH fuel'); [lia | exact H].
Qed.

Lemma translate_eq fuel texts sent :
  translate MAX backend fuel texts sent
  = if length texts =? 0 then (Returned [], sent)
    else if MAX <? length texts then
      match fuel with
      | O => (Pending, sent)
      | S fuel' => translateInBatches MAX backend fuel' texts 0 [] sent
      end
    else
      match backend (length sent) texts with
      | Some data => (Returned data, sent ++ [texts])
      | None => (Thrown, sent ++ [texts])
      end.
Proof. destruct fuel; reflexivity. Qed.

Lemma translateInBatches_eq fuel texts i results sent :
  translateInBatches MAX backend fuel texts i results sent
  = if i <? length texts then
      match fuel with
      | O => (Pending, sent)
      | S fuel' =>
          match translate MAX backend fuel'
                  (Batching.slice texts i (i + MAX)) sent with
          | (Returned batchResults, sent') =>
              translateInBatches MAX backend fuel' texts (i + MAX)
                (results ++ batchResults) sent'
          | (Thrown, sent') => (Thrown, sent')
          | (Pending, sent') => (Pending, sent')
          end
      end
    else (Returned results, sent).
Proof. destruct fuel; reflexivity. Qed.

Lemma translateInBatches_spec (texts : list Js.string) :
  0 < MAX ->
  forall fuel i results sent bs,
    Batching.slices_from fuel MAX texts i [] = Some bs ->
    translateInBatches MAX backend fuel texts i results sent
    = (let (o, k) := send_all backend (length sent) bs results in
       (o, sent ++ firstn k bs)).
Proof.
  intros Hmax. induction fuel as [|fuel IH]; intros i results sent bs Hbs;
    cbn [Batching.slices_from] in Hbs; rewrite translateInBatches_eq.
  - destruct (i <? length texts); [discriminate|].
    injection Hbs as <-. simpl. now rewrite app_nil_r.
  - destruct (i <? length texts) eqn:E.
    2:{ injection Hbs as <-. simpl. now rewrite app_nil_r. }
    apply Nat.ltb_lt in E. rewrite slices_from_out in Hbs.
    destruct (Batching.slices_from fuel MAX texts (i + MAX) []) as [bs'|] eqn:Hbs';
      [|discriminate].
    simpl in Hbs. injection Hbs as <-.
    set (b := Batching.slice texts i (i + MAX)).
    assert (Hb : 1 <= length b <= MAX).
    { unfold b. rewrite slice_step, length_firstn, length_skipn. lia. }
    rewrite translate_eq.
    replace (length b =? 0) with false by (symmetry; apply Nat.eqb_neq; lia).
    replace (MAX <? length b) with false by (symmetry; apply Nat.ltb_ge; lia).
    cbn [send_all].
    destruct (backend (length sent) b) as [data|]; [|reflexivity].
    rewrite (IH _ _ _ bs' Hbs'), length_app. cbn [length].
    rewrite Nat.add_1_r.
    destruct (send_all backend (S (length sent)) bs' (results ++ data)) as [o k].
    cbn [firstn]. now rewrite <- app_assoc.
Qed.

(** X17. With a positive request limit, [translate] sends the texts cut
    into consecutive requests of at most [MAX_TEXTS_PER_REQUEST] texts, none
    of them empty, one after the other; it stops at the first request that
    fails and throws, and otherwise returns the results of all requests in
    order.  No texts at all means no request and an empty result.  The call
    ends within [texts.length + 1] steps. *)
Theorem translate_by_requests (texts : list Js.string)
  (sent : list (list Js.string)) (fuel : nat)
  (Hmax : 0 < MAX) (Hfuel : length texts < fuel) :
  exists bs,
    Batching.slices (length texts) MAX texts = Some bs
    /\ concat bs = texts
    /\ Forall (fun b => 1 <= length b <= MAX) bs
    /\ translate MAX backend fuel texts sent
       = (let (o, k) := send_all backend (length sent) bs [] in
          (o, sent ++ firstn k bs)).
Proof.
  destruct (slices_from_spec MAX texts Hmax (length texts) 0 [])
    as (bs & Hbs & Hcat & Hall & _ & Hcount); [lia|].
  fold (Batching.slices (length texts) MAX texts) in Hbs.
  cbn [app skipn] in Hbs, Hcat, Hcount.
  exists bs. split; [exact Hbs|]. split; [exact Hcat|]. split; [exact Hall|].
  destruct fuel as [|fuel]; [lia|]. rewrite translate_eq.
  destruct (length texts =? 0) eqn:E0.
  - apply Nat.eqb_eq in E0. destruct bs as [|b bs'].
    + simpl. now rewrite app_nil_r.
    + cbn [length] in Hcount. rewrite E0 in Hcount. simpl in Hcount. lia.
  - apply Nat.eqb_neq in E0. destruct (MAX <? length texts) eqn:E1.
    + apply translateInBatches_spec; [exact Hmax|].
      apply (slices_from_more_fuel MAX texts (length texts)); [lia | exact Hbs].
    + apply Nat.ltb_ge in E1.
      assert (Hone : bs = [texts]).
      { destruct bs as [|b [|b' bs']].
        - simpl in Hcount. lia.
        - simpl in Hcat. now rewrite app_nil_r in Hcat; subst b.
        - cbn [length] in Hcount. nia. }
      subst bs. cbn [send_all].
      destruct (backend (length sent) texts); reflexivity.
Qed.

End ApiClientFacts.

(** With a request limit of zero, [translate] on a non-empty list
    never returns and never sends a request: every batch it cuts is empty
    and the loop index does not advance. *)
Theorem translate_zero_limit_never_ends
  (backend : nat -> list Js.string -> option (list DomTranslator.TranslatedText))
  (texts : list Js.string) (sent : list (list Js.string)) (fuel : nat)
  (Hsome : texts <> []) :
  ApiClient.translate 0 backend fuel texts sent = (ApiClient.Pending, sent).
Proof.
  assert (Hlen : (0 < length texts)%nat).
  { destruct texts; [congruence | simpl; lia]. }
  assert (Hloop : forall f results,
            ApiClient.translateInBatches 0 backend f texts 0 results sent
            = (ApiClient.Pending, sent)).
  { induction f as [|f IH]; intros results; rewrite translateInBatches_eq;
      replace (0 <? length texts)%nat with true
        by (symmetry; apply Nat.ltb_lt; lia).
    - reflexivity.
    - replace (Batching.slice texts 0 (0 + 0)) with (@nil Js.string) by reflexivity.
      rewrite translate_eq. cbn [length Nat.eqb]. apply IH. }
  rewrite translate_eq.
  replace (length texts =? 0)%nat with false by (symmetry; apply Nat.eqb_neq; lia).
  replace (0 <? length texts)%nat with true by (symmetry; apply Nat.ltb_lt; lia).
  destruct fuel as [|fuel]; [reflexivity | apply Hloop].
Qed.

(** Five texts, at most two per request, the second request failing: two
    requests are made and the call throws. *)
Lemma translate_by_requests_witness :
  let backend :=
    fun (n : nat) (texts : list Js.string) =>
      if (n =? 1)%nat then None
      else Some (map (fun s => {| DomTranslator.original := s;
                                  DomTranslator.translated := s |}) texts) in
  let texts := [[1%N]; [2%N]; [3%N]; [4%N]; [5%N]] in
  exists bs,
    Batching.slices (length texts) 2 texts = Some bs
    /\ concat bs = texts
    /\ Forall (fun b => (1 <= length b <= 2)%nat) bs
    /\ ApiClient.translate 2 backend 6 texts []
       = (let (o, k) := ApiClient.send_all backend (length (@nil (list Js.string))) bs [] in
          (o, [] ++ firstn k bs)).
Proof.
  intros backend texts.
  apply (translate_by_requests 2 backend texts [] 6); simpl; lia.
Defined.

Lemma translate_zero_limit_never_ends_witness :
  ApiClient.translate 0 (fun _ _ => None) 100 [[1%N]] [] = (ApiClient.Pending, []).
Proof.
  apply (translate_zero_limit_never_ends (fun _ _ => None) [[1%N]] [] 100).
  discriminate.
Defined.

Example translate_fails_fast :
  ApiClient.translate 2
    (fun (n : nat) (texts : list Js.string) =>
       if (n =? 1)%nat then None
       else Some (map (fun s => {| DomTranslator.original := s;
                                   DomTranslator.translated := s |}) texts))
    6 [[1%N]; [2%N]; [3%N]; [4%N]; [5%N]] []
  = (ApiClient.Thrown, [[[1%N]; [2%N]]; [[3%N]; [4%N]]]).
Proof. reflexivity. Qed.

(* ================================================================== *)
(** * The content script: ordering, the cached path and the batches *)

Section ContentScriptFacts.
Import ContentScript.

Section SortFacts.
Variable window : Page.Window.

Local Abbreviation visible :=
  (fun n : Page.TextNodeInfo => isInViewport window (Page.parentElement n)).
Local Abbreviation compareFn :=
  (fun a b : Page.TextNodeInfo =>
     (if isInViewport window (Page.parentElement b) then 1 else 0)
     - (if isInViewport window (Page.parentElement a) then 1 else 0)).

Lemma insert_visible x l :
  visible x = true -> insert compareFn x l = x :: l.
Proof.
  intros Hx. destruct l as [|y l]; [reflexivity|]. cbn [insert].
  rewrite Hx. destruct (isInViewport window (Page.parentElement y)); reflexivity.
Qed.

Lemma insert_hidden x v h :
  visible x = false ->
  forallb visible v = true ->
  forallb (fun n => negb (visible n)) h = true ->
  insert compareFn x (v ++ h) = v ++ x :: h.
Proof.
  intros Hx Hv Hh. induction v as [|y v IH]; cbn [app].
  - destruct h as [|y h]; [reflexivity|]. cbn [insert].
    cbn [forallb] in Hh. apply andb_true_iff in Hh. destruct Hh as [Hy _].
    apply negb_true_iff in Hy. rewrite Hx, Hy. reflexivity.
  - cbn [forallb] in Hv. apply andb_true_iff in Hv. destruct Hv as [Hy Hv].
    cbn [insert]. rewrite Hx, Hy. cbn. f_equal. now apply IH.
Qed.

Lemma forallb_filter {A} (p : A -> bool) l : forallb p (filter p l) = true.
Proof.
  apply forallb_forall. intros x Hx. now apply filter_In in Hx.
Qed.

(** X18. [sortByViewport] puts the nodes whose parent is in the viewport
    first and the others after them, each group in the order it had: the
    result is a reordering of the input that changes the relative order of
    no two visible and of no two hidden nodes. *)
Theorem sortByViewport_partitions (nodes : list Page.TextNodeInfo) :
  sortByViewport window nodes
  = filter visible nodes ++ filter (fun n => negb (visible n)) nodes
  /\ Permutation (sortByViewport window nodes) nodes.
Proof.
  assert (Heq : sortByViewport window nodes
                = filter visible nodes ++ filter (fun n => negb (visible n)) nodes).
  { unfold sortByViewport, sort. induction nodes as [|x nodes IH]; [reflexivity|].
    cbn [fold_right filter]. rewrite IH.
    destruct (isInViewport window (Page.parentElement x)) eqn:Hx; cbn [negb].
    - now apply insert_visible.
    - apply insert_hidden; [exact Hx | apply forallb_filter|].
      apply (forallb_filter (fun n => negb (visible n))). }
  split; [exact Heq|]. rewrite Heq. clear Heq.
  induction nodes as [|x nodes IH]; [constructor|]. cbn [filter].
  destruct (isInViewport window (Page.parentElement x)); cbn [negb app].
  - now constructor.
  - apply Permutation_sym, Permutation_cons_app, Permutation_sym, IH.
Qed.

End SortFacts.

Variable clock : nat -> Z.
Variable st : State.
Variable cache : TranslationCache.t.

(** Any list of nodes will do for what follows; in the code it is
    [newNodes]. *)
Variable candidates : list DomTranslator.TextNodeInfo.

Local Abbreviation texts := (map DomTranslator.originalText candidates).
Local Abbreviation batch :=
  (fst (TranslationCache.getMultiple clock cache texts (sourceLang st)
          (targetLang st))).

Lemma cachedBatch_spec (cached : @Js.Map nat Js.string) :
  (forall k, In k (Js.map_keys cached) -> (k < length candidates)%nat) ->
  (forall kv, In kv cached -> Js.truthy (snd kv) = true) ->
  exists cachedNodes cachedResults,
    cachedBatch candidates texts cached = Some (cachedNodes, cachedResults)
    /\ length cachedNodes = length cachedResults
    /\ Forall2 DomTranslator.reports_snapshot cachedNodes (map Some cachedResults)
    /\ Forall (fun r => DomTranslator.translated r <> []) cachedResults
    /\ map Some cachedNodes = map (nth_error candidates) (Js.map_keys cached).
Proof.
  induction cached as [|[index translated] rest IH]; intros Hlt Hv.
  - exists [], []. simpl. repeat split; constructor.
  - destruct IH as (ns & rs & Hr & Hlen & Hal & Hne & Hmap).
    { intros k Hk. apply Hlt. now right. }
    { intros kv Hkv. apply Hv. now right. }
    assert (Hi : (index < length candidates)%nat) by (apply Hlt; now left).
    destruct (nth_error candidates index) as [nodeInfo|] eqn:En.
    2:{ apply nth_error_None in En. lia. }
    exists (nodeInfo :: ns),
      ({| DomTranslator.original := DomTranslator.originalText nodeInfo;
          DomTranslator.translated := translated |} :: rs).
    cbn [cachedBatch]. rewrite En, nth_error_map, En, Hr. cbn [option_map].
    split; [reflexivity|]. split; [simpl; now rewrite Hlen|].
    split; [constructor; [reflexivity | exact Hal]|].
    split.
    + constructor; [|exact Hne]. cbn.
      specialize (Hv (index, translated) (or_introl eq_refl)). cbn in Hv.
      intros ->. discriminate.
    + cbn [Js.map_keys map fst]. rewrite En. f_equal. exact Hmap.
Qed.

(** The cached indices are positions of the batch, and the cached values
    are not empty. *)
Lemma cached_keys_in_range k :
  In k (Js.map_keys (TranslationCache.cached batch)) ->
  (k < length candidates)%nat.
Proof.
  intros Hk.
  pose proof (getMultiple_indices clock (sourceLang st) (targetLang st)
                cache texts) as Hp.
  cbv zeta in Hp.
  assert (Hin : In k (seq 0 (length texts))).
  { apply (Permutation_in _ Hp), in_or_app. now left. }
  apply in_seq in Hin. rewrite length_map in Hin. lia.
Qed.

Lemma cached_values_truthy kv :
  In kv (TranslationCache.cached batch) -> Js.truthy (snd kv) = true.
Proof.
  intros Hkv. unfold TranslationCache.getMultiple in Hkv.
  destruct (getMultiple_from_spec clock (sourceLang st) (targetLang st) texts 0
              cache {| TranslationCache.cached := [];
                       TranslationCache.uncached := [] |})
    as (hits & misses & E1 & _ & _ & _ & _ & Hv); [intros ? []|].
  rewrite E1 in Hkv. now apply Hv.
Qed.

(** X19. The cached path hands [applyTranslations] a well-formed batch:
    every cached index has its node and its text, so nothing undefined is
    pushed; nodes and results are equally many, so the length guard passes;
    every result reports as its original the snapshot of its node, and its
    translation is not empty. *)
Theorem cached_path_is_aligned :
  exists cachedNodes cachedResults,
    cachedBatch candidates texts (TranslationCache.cached batch)
    = Some (cachedNodes, cachedResults)
    /\ length cachedNodes = length cachedResults
    /\ Forall2 DomTranslator.reports_snapshot cachedNodes (map Some cachedResults)
    /\ Forall (fun r => DomTranslator.translated r <> []) cachedResults
    /\ map Some cachedNodes
       = map (nth_error candidates) (Js.map_keys (TranslationCache.cached batch)).
Proof.
  apply cachedBatch_spec.
  - exact cached_keys_in_range.
  - exact cached_values_truthy.
Qed.

Lemma map_nth_error_seq {A} (l : list A) : forall p : list A,
  map (nth_error (p ++ l)) (seq (length p) (length l)) = map Some l.
Proof.
  induction l as [|x l IH]; intros p; [reflexivity|].
  cbn [length seq map]. f_equal.
  - rewrite nth_error_app2 by lia. now rewrite Nat.sub_diag.
  - specialize (IH (p ++ [x])). rewrite <- app_assoc, length_app in IH.
    cbn [length app] in IH. rewrite Nat.add_1_r in IH. exact IH.
Qed.

Lemma concat_batch_nodes (bs : list (list TranslationCache.Uncached)) :
  concat (map nodes (map (makeBatch candidates) bs))
  = map (fun u => nth_error candidates (TranslationCache.index u)) (concat bs).
Proof.
  induction bs as [|b bs IH]; [reflexivity|].
  cbn [map concat]. rewrite map_app, IH. reflexivity.
Qed.

(** X20. No candidate is lost and none is handled twice: with a positive
    request limit, the nodes applied from the cache together with the nodes
    of all batches are exactly the candidates, each once.  Every batch
    holds between one and [MAX_TEXTS_PER_REQUEST] texts, and each text of a
    batch comes with the node whose snapshot it is. *)
Theorem candidates_are_partitioned (MAX_TEXTS_PER_REQUEST fuel : nat)
  (Hmax : (0 < MAX_TEXTS_PER_REQUEST)%nat)
  (Hfuel : (length candidates <= fuel)%nat) :
  exists cachedNodes cachedResults batches,
    cachedBatch candidates texts (TranslationCache.cached batch)
    = Some (cachedNodes, cachedResults)
    /\ makeBatches fuel MAX_TEXTS_PER_REQUEST candidates
         (TranslationCache.uncached batch) = Some batches
    /\ Permutation (map Some cachedNodes ++ concat (map nodes batches))
         (map Some candidates)
    /\ Forall (fun b => (1 <= length (indices b) <= MAX_TEXTS_PER_REQUEST)%nat)
         batches
    /\ Forall
         (fun b =>
            Forall2
              (fun u n =>
                 exists nodeInfo,
                   n = Some nodeInfo
                   /\ DomTranslator.originalText nodeInfo = TranslationCache.text u)
              (indices b) (nodes b))
         batches.
Proof.
  destruct (cachedBatch_spec (TranslationCache.cached batch)
              cached_keys_in_range cached_values_truthy)
    as (ns & rs & Hr & _ & _ & _ & Hmap).
  pose proof (getMultiple_indices clock (sourceLang st) (targetLang st)
                cache texts) as Hp.
  cbv zeta in Hp.
  destruct (getMultiple_from_spec clock (sourceLang st) (targetLang st) texts 0
              cache {| TranslationCache.cached := [];
                       TranslationCache.uncached := [] |})
    as (hits & misses & _ & E2 & _ & _ & Ht & _); [intros ? []|].
  cbn [TranslationCache.uncached app] in E2.
  assert (Hun : (length (TranslationCache.uncached batch) <= fuel)%nat).
  { assert (Hl : (length (Js.map_keys (TranslationCache.cached batch)
                          ++ map TranslationCache.index
                               (TranslationCache.uncached batch))
                  = length (seq 0 (length texts)))%nat)
      by (apply Permutation_length, Hp).
    unfold Js.map_keys in Hl.
    rewrite length_app, !length_map, length_seq in Hl. lia. }
  destruct (slices_from_spec MAX_TEXTS_PER_REQUEST
              (TranslationCache.uncached batch) Hmax fuel 0 [])
    as (bs & Hbs & Hcat & Hall & _); [lia|].
  fold (Batching.slices fuel MAX_TEXTS_PER_REQUEST
          (TranslationCache.uncached batch)) in Hbs.
  cbn [app skipn] in Hbs, Hcat.
  exists ns, rs, (map (makeBatch candidates) bs).
  split; [exact Hr|]. split; [unfold makeBatches; now rewrite Hbs|].
  split; [|split].
  - rewrite Hmap, concat_batch_nodes, Hcat.
    rewrite <- (map_map TranslationCache.index (nth_error candidates)),
      <- map_app.
    rewrite <- (map_nth_error_seq candidates []). cbn [app length].
    apply Permutation_map. rewrite length_map in Hp. exact Hp.
  - rewrite Forall_map. exact Hall.
  - rewrite Forall_map. apply Forall_forall. intros b Hb.
    cbn [makeBatch indices nodes].
    assert (Hsub : forall u, In u b -> In u (TranslationCache.uncached batch)).
    { intros u Hu. rewrite <- Hcat. apply in_concat. eauto. }
    clear - Hsub E2 Ht. induction b as [|u b IH]; [constructor|].
    cbn [map]. constructor.
    + assert (Hu : In u misses).
      { unfold TranslationCache.getMultiple in Hsub. rewrite <- E2.
        apply Hsub. now left. }
      destruct (Ht u Hu) as [_ Hnth]. rewrite Nat.sub_0_r, nth_error_map in Hnth.
      destruct (nth_error candidates (TranslationCache.index u)) as [nodeInfo|];
        [|discriminate].
      exists nodeInfo. split; [reflexivity|]. cbn in Hnth. congruence.
    + apply IH. intros u' Hu'. apply Hsub. now right.
Qed.

End ContentScriptFacts.

(* ================================================================== *)
(** * The content script: a response *)

Section Receive.
Import ContentScript.

Lemma cacheResults_last clock st front : forall i cache r,
  cacheResults clock i st cache (front ++ [r])
  = TranslationCache.set (cacheResults clock i st cache front)
      (DomTranslator.original r) (DomTranslator.translated r)
      (sourceLang st) (targetLang st) (clock (i + length front)%nat).
Proof.
  induction front as [|x front IH]; intros i cache r; cbn [app cacheResults length].
  - now rewrite Nat.add_0_r.
  - rewrite IH.
    replace (S i + length front)%nat with (i + S (length front))%nat by lia.
    reflexivity.
Qed.

(** X21. A response is never applied out of step: when translation has
    been switched off in the meantime, or when the response does not hold
    one result per node of the batch, the page and the translator are left
    as they are.  The results are cached all the same, and the last of them
    is the entry found under its key afterwards. *)
Theorem receive_out_of_step (st : State) (clock : nat -> Z)
  (cache : TranslationCache.t) (translator : DomTranslator.t) (d : Dom.Document)
  (batchNodes : list DomTranslator.TextNodeInfo)
  (results : list DomTranslator.TranslatedText)
  (Hstep : isEnabled st = false \/ length batchNodes <> length results) :
  snd (receive st clock cache translator d batchNodes (Some results))
  = (translator, d)
  /\ (forall front r,
        results = front ++ [r] ->
        TranslationCache.cache_get
          (fst (receive st clock cache translator d batchNodes (Some results)))
          (TranslationCache.generateKey (DomTranslator.original r)
             (sourceLang st) (targetLang st))
        = Some {| TranslationCache.translated := DomTranslator.translated r;
                  TranslationCache.timestamp := clock (length front) |}).
Proof.
  cbn [receive fst snd]. split.
  - destruct (isEnabled st); [|reflexivity].
    destruct Hstep as [H|H]; [discriminate|].
    unfold DomTranslator.applyTranslations. rewrite length_map.
    destruct (length batchNodes =? length results)%nat eqn:E; [|reflexivity].
    apply Nat.eqb_eq in E. contradiction.
  - intros front r ->. rewrite cacheResults_last. apply set_stores.
Qed.

Lemma receive_out_of_step_witness :
  snd (ContentScript.receive
         {| isEnabled := true; sourceLang := Js.lit "en"%string;
            targetLang := Js.lit "ko"%string; translatingNodes := [] |}
         (fun _ => 0) TranslationCache.empty DomTranslator.init
         (DomTranslator.page (Js.lit "Hello"%string))
         [{| DomTranslator.node := 0%nat;
             DomTranslator.originalText := Js.lit "Hello"%string |}]
         (Some []))
  = (DomTranslator.init, DomTranslator.page (Js.lit "Hello"%string)).
Proof.
  apply (receive_out_of_step
           {| isEnabled := true; sourceLang := Js.lit "en"%string;
              targetLang := Js.lit "ko"%string; translatingNodes := [] |}
           (fun _ => 0) TranslationCache.empty DomTranslator.init
           (DomTranslator.page (Js.lit "Hello"%string))
           [{| DomTranslator.node := 0%nat;
               DomTranslator.originalText := Js.lit "Hello"%string |}] []).
  right. discriminate.
Defined.

End Receive.

Lemma candidates_are_partitioned_witness :
  let st :=
    {| ContentScript.isEnabled := true;
       ContentScript.sourceLang := Js.lit "en"%string;
       ContentScript.targetLang := Js.lit "ko"%string;
       ContentScript.translatingNodes := [] |} in
  let cache :=
    TranslationCache.set TranslationCache.empty (Js.lit "Hello"%string)
      (Js.lit "Annyeong"%string) (Js.lit "en"%string) (Js.lit "ko"%string) 0 in
  let candidates :=
    [{| DomTranslator.node := 0%nat;
        DomTranslator.originalText := Js.lit "Hello"%string |};
     {| DomTranslator.node := 1%nat;
        DomTranslator.originalText := Js.lit "Bye"%string |}] in
  let batch :=
    fst (TranslationCache.getMultiple (fun _ => 10) cache
           (map DomTranslator.originalText candidates)
           (Js.lit "en"%string) (Js.lit "ko"%string)) in
  exists cachedNodes cachedResults batches,
    ContentScript.cachedBatch candidates
      (map DomTranslator.originalText candidates)
      (TranslationCache.cached batch) = Some (cachedNodes, cachedResults)
    /\ ContentScript.makeBatches 2 1 candidates (TranslationCache.uncached batch)
       = Some batches
    /\ Permutation
         (map Some cachedNodes ++ concat (map ContentScript.nodes batches))
         (map Some candidates)
    /\ Forall (fun b => (1 <= length (ContentScript.indices b) <= 1)%nat) batches
    /\ Forall
         (fun b =>
            Forall2
              (fun u n =>
                 exists nodeInfo,
                   n = Some nodeInfo
                   /\ DomTranslator.originalText nodeInfo = TranslationCache.text u)
              (ContentScript.indices b) (ContentScript.nodes b))
         batches.
Proof.
  intros st cache candidates batch.
  apply (candidates_are_partitioned (fun _ => 10) st cache candidates 1 2).
  - lia.
  - simpl. lia.
Defined.

(* ================================================================== *)
(** * TextExtractor: what the walk finds *)

Section ExtractionFacts.
Import Extraction.

Variable SKIP_TAGS : Js.string -> bool.
Variables MIN_TEXT_LENGTH MAX_TEXT_LENGTH : Z.

Local Abbreviation visit' := (visit SKIP_TAGS MIN_TEXT_LENGTH MAX_TEXT_LENGTH).
Local Abbreviation walk' := (walk SKIP_TAGS MIN_TEXT_LENGTH MAX_TEXT_LENGTH).
Local Abbreviation shadows' := (shadows SKIP_TAGS MIN_TEXT_LENGTH MAX_TEXT_LENGTH).

(** Induction over a tree, through children and shadow children. *)
Lemma Node_induction (P : Node -> Prop)
  (Htext : forall ref s, P (TextNode ref s))
  (Hcomment : P CommentNode)
  (Helement : forall el ch sh,
      Forall P ch ->
      (forall s, sh = Some s -> Forall P s) ->
      P (ElementNode el ch sh)) :
  forall n, P n.
Proof.
  fix IH 1. intros [ref s| |el ch sh].
  - apply Htext.
  - apply Hcomment.
  - apply Helement.
    + induction ch as [|c ch IHch]; constructor; [apply IH | exact IHch].
    + destruct sh as [s0|]; intros s E; [|discriminate].
      injection E as <-. induction s0 as [|c s0 IHs]; constructor;
        [apply IH | exact IHs].
Qed.

Local Abbreviation visit3' := (visit3 SKIP_TAGS MIN_TEXT_LENGTH MAX_TEXT_LENGTH).
Local Abbreviation eligible' := (eligible SKIP_TAGS MIN_TEXT_LENGTH MAX_TEXT_LENGTH).

(** One text node gives one candidate, or none. *)
Lemma visit_In parent ref s info :
  In info (visit' parent ref s)
  <-> exists el,
        parent = Some el
        /\ info = {| Page.node := ref; Page.originalText := Js.trim s;
                     Page.parentElement := el |}
        /\ eligible' el s.
Proof.
  unfold visit, filterTextNode.
  destruct parent as [el|].
  2:{ split; [intros [] | intros (el & H & _); discriminate]. }
  assert (Hreject :
    (eligible' el s -> False) ->
    (In info [] <-> exists el0,
                      Some el = Some el0
                      /\ info = {| Page.node := ref; Page.originalText := Js.trim s;
                                   Page.parentElement := el0 |}
                      /\ eligible' el0 s)).
  { intros Hel. split; [intros []|].
    intros (el0 & H & _ & Hel0). injection H as <-. exfalso. auto. }
  destruct (SKIP_TAGS (Page.tagName el)) eqn:E1.
  { apply Hreject. intros (C & _). congruence. }
  destruct (Page.isContentEditable el) eqn:E2.
  { apply Hreject. intros (_ & C & _). congruence. }
  destruct (Page.isFormControl el) eqn:E3.
  { apply Hreject. intros (_ & _ & C & _). congruence. }
  cbv zeta. destruct (Js.truthy (Js.trim s)) eqn:E4; cbn [negb].
  2:{ apply Hreject. intros (_ & _ & _ & C & _). apply C.
      destruct (Js.trim s); [reflexivity | discriminate]. }
  destruct (TextFilter.isNonTranslatable (Js.trim s)) eqn:E5.
  { apply Hreject. intros (_ & _ & _ & _ & C & _). congruence. }
  destruct (Z.of_nat (length (Js.trim s)) <? MIN_TEXT_LENGTH) eqn:Emin; cbn [orb].
  { apply Z.ltb_lt in Emin. apply Hreject. intros (_ & _ & _ & _ & _ & C & _). lia. }
  apply Z.ltb_ge in Emin.
  destruct (Z.of_nat (length (Js.trim s)) >? MAX_TEXT_LENGTH) eqn:Emax.
  { apply Z.gtb_lt in Emax. apply Hreject. intros (_ & _ & _ & _ & _ & C & _). lia. }
  rewrite Z.gtb_ltb, Z.ltb_ge in Emax.
  destruct (isElementVisible el) eqn:Evis; cbn [negb].
  2:{ apply Hreject. intros (_ & _ & _ & _ & _ & _ & C). congruence. }
  split.
  - intros [<-|[]]. exists el. split; [reflexivity|]. split; [reflexivity|].
    unfold eligible. repeat split; auto.
    intros E. rewrite E in E4. discriminate.
  - intros (el' & H & -> & _). injection H as <-. now left.
Qed.

Lemma walk_shadows_list (ch : list Node) :
  Forall (fun c => forall p,
            Permutation (walk' p c ++ shadows' c)
              (flat_map visit3' (textsIn p c))) ch ->
  forall p,
    Permutation (flat_map (walk' p) ch ++ flat_map shadows' ch)
      (flat_map visit3' (flat_map (textsIn p) ch)).
Proof.
  induction 1 as [|c ch Hc Hch IH]; intros p; [constructor|].
  cbn [flat_map]. rewrite flat_map_app.
  apply Permutation_trans
    with ((walk' p c ++ shadows' c) ++ flat_map (walk' p) ch ++ flat_map shadows' ch).
  - rewrite <- !app_assoc. apply Permutation_app_head.
    apply Permutation_app_swap_app.
  - apply Permutation_app; [apply Hc | apply IH].
Qed.

(** The walk and the descent into shadow roots together visit every text
    node of the tree once. *)
Lemma walk_shadows_perm : forall n p,
  Permutation (walk' p n ++ shadows' n) (flat_map visit3' (textsIn p n)).
Proof.
  induction n as [ref s| |el ch sh IHch IHsh] using Node_induction; intros p.
  - cbn [walk shadows textsIn flat_map]. now rewrite !app_nil_r.
  - constructor.
  - cbn [walk shadows textsIn]. rewrite flat_map_app.
    apply Permutation_trans
      with ((flat_map (walk' (Some el)) ch ++ flat_map shadows' ch)
            ++ match sh with
               | Some s => flat_map (walk' None) s ++ flat_map shadows' s
               | None => []
               end).
    + rewrite <- app_assoc. apply Permutation_app_head, Permutation_app_comm.
    + apply Permutation_app; [now apply walk_shadows_list|].
      destruct sh as [s|]; [|constructor].
      apply walk_shadows_list. now apply IHsh.
Qed.

Lemma extract_perm root (childNodes : list Node) :
  Permutation
    (extractTextNodes SKIP_TAGS MIN_TEXT_LENGTH MAX_TEXT_LENGTH root childNodes)
    (flat_map visit3' (flat_map (textsIn root) childNodes)).
Proof.
  unfold extractTextNodes, extractFromNode. cbn [app].
  apply walk_shadows_list. apply Forall_forall. intros c _.
  apply walk_shadows_perm.
Qed.

(** X22. [extractTextNodes] returns exactly the text nodes of the subtree,
    at any depth of the light tree and of the shadow trees below it, that
    have a parent element which is no skipped tag, not editable, no form
    control and visible, and whose trimmed text is not empty, dense enough
    in letters and within the length bounds.  The snapshot it records is the
    trimmed text, which therefore is not empty and has no white space at
    either end. *)
Theorem extractTextNodes_characterised root (childNodes : list Node)
  (info : Page.TextNodeInfo) :
  (In info (extractTextNodes SKIP_TAGS MIN_TEXT_LENGTH MAX_TEXT_LENGTH
              root childNodes)
   <-> exists s,
         In (Some (Page.parentElement info), Page.node info, s)
            (flat_map (textsIn root) childNodes)
         /\ Page.originalText info = Js.trim s
         /\ eligible' (Page.parentElement info) s)
  /\ (In info (extractTextNodes SKIP_TAGS MIN_TEXT_LENGTH MAX_TEXT_LENGTH
                 root childNodes) ->
      Js.bare (Page.originalText info) = true).
Proof.
  assert (Hiff :
    In info (extractTextNodes SKIP_TAGS MIN_TEXT_LENGTH MAX_TEXT_LENGTH
               root childNodes)
    <-> exists s,
          In (Some (Page.parentElement info), Page.node info, s)
             (flat_map (textsIn root) childNodes)
          /\ Page.originalText info = Js.trim s
          /\ eligible' (Page.parentElement info) s).
  { pose proof (extract_perm root childNodes) as Hp. split.
    - intros Hin. apply (Permutation_in _ Hp) in Hin.
      apply in_flat_map in Hin. destruct Hin as ([[p r] s] & Ht & Hv).
      unfold visit3 in Hv. cbn [fst snd] in Hv.
      apply visit_In in Hv. destruct Hv as (el & -> & -> & Hel).
      exists s. cbn. auto.
    - intros (s & Ht & Ho & Hel).
      apply (Permutation_in _ (Permutation_sym Hp)).
      apply in_flat_map. exists (Some (Page.parentElement info), Page.node info, s).
      split; [exact Ht|]. unfold visit3. cbn [fst snd].
      apply visit_In. exists (Page.parentElement info).
      split; [reflexivity|]. split; [|exact Hel].
      destruct info as [n o e]. cbn in *. now subst o. }
  split; [exact Hiff|].
  intros Hin. apply Hiff in Hin. destruct Hin as (s & _ & -> & Hel).
  destruct Hel as (_ & _ & _ & Hne & _).
  now destruct (trim_decompose s Hne).
Qed.

Lemma visit3_nodes (texts : list (option Page.Element * Dom.Node * Js.string)) n :
  In n (map Page.node (flat_map visit3' texts)) ->
  In n (map (fun t => snd (fst t)) texts).
Proof.
  intros Hin. apply in_map_iff in Hin. destruct Hin as (info & <- & Hin).
  apply in_flat_map in Hin. destruct Hin as ([[p r] s] & Ht & Hv).
  unfold visit3 in Hv. cbn [fst snd] in Hv. apply visit_In in Hv.
  destruct Hv as (el & _ & -> & _). cbn.
  apply in_map_iff. exists (p, r, s). auto.
Qed.

Lemma visit3_NoDup (texts : list (option Page.Element * Dom.Node * Js.string)) :
  NoDup (map (fun t => snd (fst t)) texts) ->
  NoDup (map Page.node (flat_map visit3' texts)).
Proof.
  induction texts as [|[[p r] s] texts IH]; intros Hnd; [constructor|].
  cbn [map fst snd] in Hnd. inversion Hnd as [|? ? Hr Hnd']; subst.
  cbn [flat_map]. rewrite map_app.
  assert (Hone : map Page.node (visit3' (p, r, s)) = []
                 \/ map Page.node (visit3' (p, r, s)) = [r]).
  { unfold visit3. cbn [fst snd]. unfold visit.
    destruct (filterTextNode SKIP_TAGS p s); auto.
    destruct p as [el|]; auto. cbv zeta.
    destruct (_ || _); auto. destruct (negb _); auto. }
  destruct Hone as [-> | ->]; cbn [app]; [now apply IH|].
  constructor; [|now apply IH].
  intros Hin. apply Hr. now apply visit3_nodes.
Qed.

Lemma NoDup_map_same {A B} (f : A -> B) (l : list A) a b :
  NoDup (map f l) -> In a l -> In b l -> f a = f b -> a = b.
Proof.
  induction l as [|x l IH]; intros Hnd Ha Hb Hf; [contradiction|].
  cbn [map] in Hnd. inversion Hnd as [|? ? Hx Hnd']; subst.
  destruct Ha as [->|Ha], Hb as [->|Hb]; auto.
  - exfalso. apply Hx. rewrite Hf. now apply in_map.
  - exfalso. apply Hx. rewrite <- Hf. now apply in_map.
Qed.

(** X23. When the text nodes of the subtree are distinct nodes, so are the
    candidates: no node is extracted twice, although the light tree and the
    shadow trees are walked separately.  A text node that is a direct child
    of a shadow root has no parent element and is never a candidate. *)
Theorem extractTextNodes_distinct root (childNodes : list Node)
  (Hdistinct : NoDup (map (fun t => snd (fst t))
                        (flat_map (textsIn root) childNodes))) :
  NoDup (map Page.node
           (extractTextNodes SKIP_TAGS MIN_TEXT_LENGTH MAX_TEXT_LENGTH
              root childNodes))
  /\ (forall info s,
        In info (extractTextNodes SKIP_TAGS MIN_TEXT_LENGTH MAX_TEXT_LENGTH
                   root childNodes) ->
        ~ In (None, Page.node info, s) (flat_map (textsIn root) childNodes)).
Proof.
  pose proof (extract_perm root childNodes) as Hp. split.
  - apply (Permutation_NoDup (Permutation_map Page.node (Permutation_sym Hp))).
    now apply visit3_NoDup.
  - intros info s Hin Hnone.
    apply (Permutation_in _ Hp) in Hin.
    apply in_flat_map in Hin. destruct Hin as ([[p r] s'] & Ht & Hv).
    unfold visit3 in Hv. cbn [fst snd] in Hv. apply visit_In in Hv.
    destruct Hv as (el & -> & -> & _). cbn [Page.node] in Hnone.
    pose proof (NoDup_map_same _ _ _ _ Hdistinct Ht Hnone eq_refl) as E.
    discriminate.
Qed.

End ExtractionFacts.

(** On the small page the paragraph text and the text in the shadow span
    are found, trimmed; the text directly below the shadow root is not. *)
Example extractTextNodes_demo :
  Extraction.extractTextNodes Extraction.demo_skip 1 5000 None Extraction.demo_tree
  = [{| Page.node := 0%nat; Page.originalText := Js.lit "Hello"%string;
        Page.parentElement := Extraction.demo_element |};
     {| Page.node := 1%nat; Page.originalText := Js.lit "Bye"%string;
        Page.parentElement := Extraction.demo_element |}].
Proof. vm_compute. reflexivity. Qed.

Lemma extractTextNodes_distinct_witness :
  NoDup (map Page.node
           (Extraction.extractTextNodes Extraction.demo_skip 1 5000 None
              Extraction.demo_tree)).
Proof.
  refine (proj1 (extractTextNodes_distinct Extraction.demo_skip 1 5000 None
                   Extraction.demo_tree _)).
  cbn. repeat constructor; cbn; intuition discriminate.
Defined.
